(** * The cone configurator's texture caches, transitions and materials

    A shallow embedding of the parts of the product configurator that its
    specification calls the core:

    - [TextureCache]: [src/utils/textureCache.ts] (the module imported as
      [@/src/utils/textureCache]): [preloadTexture], [getCachedTexture],
      [clearTextureCache] and the two callbacks handed to the loader;
    - [Procedural]: [fractalNoise], [generatePaperTexture] and
      [getProceduralTexture] of [PaperViewer.tsx];
    - [Transition]: the [useFrame] progress updates of [AnimatedPaper]
      ([PaperViewer.tsx]) and [MergingScene] ([ConeMergeAnimtaion.tsx]),
      in exact arithmetic, and [Doubles]: the same updates on binary64
      numbers;
    - [Merge]: the phase windows and easing curves of [MergingScene];
    - [Render]: which texture map each material receives in
      [AnimatedPaper] and in [ConeMesh] ([ConeViewer.tsx]).

    Outside [Doubles], JavaScript numbers are modelled as real numbers:
    a statement about arithmetic there is a statement about the exact
    value of the expression the code evaluates, not about its rounding
    to a double, and is kept to ranges and orderings that rounding does
    not decide.  Whether a progress reaches the threshold 1 does depend
    on rounding: the completion of a transition is stated in [Doubles],
    on primitive binary64 floats.  Module-level [Map]s are [gmap]s
    threaded through explicit state; objects that the code compares by
    identity carry an identifier. *)

From Stdlib Require Import Reals Lra List Bool Floats.
From stdpp Require Import gmap strings list fin_maps.

(** ** Texture cache ([textureCache.ts]) *)

Module TextureCache.

Inductive Wrapping := ClampToEdgeWrapping | RepeatWrapping | MirroredRepeatWrapping.
Inductive ColorTag := NoColorSpace | SRGBColorSpace | LinearEncoding | sRGBEncoding.

(** A [THREE.Texture] object.  [tex_id] is the identity of the object;
    [has_colorSpace] says whether the three.js version in use gives
    textures a [colorSpace] property (the ['colorSpace' in tex] test). *)
Record Texture := mkTexture {
  tex_id : nat;
  wrapS : Wrapping;
  wrapT : Wrapping;
  repeat_xy : nat * nat;
  has_colorSpace : bool;
  colorSpace : ColorTag;
  encoding : ColorTag;
  needsUpdate : bool
}.

#[global] Instance Wrapping_eq_dec : EqDecision Wrapping.
Proof. solve_decision. Defined.
#[global] Instance ColorTag_eq_dec : EqDecision ColorTag.
Proof. solve_decision. Defined.
#[global] Instance Texture_eq_dec : EqDecision Texture.
Proof. solve_decision. Defined.

(** The value a loader hands to its error callback. *)
Inductive LoadError := ErrorEvent (msg : string).

(** A promise object is a cell of the promise heap; a settled promise
    never changes again. *)
Inductive PromiseState :=
| Pending
| Fulfilled (tex : Texture)
| Rejected (err : LoadError).

Definition PromiseId := nat.

Record State := mkState {
  globalTextureCache : gmap string Texture;
  texturePromises : gmap string PromiseId;
  promiseHeap : gmap PromiseId PromiseState;
  nextPromise : PromiseId;
  (** the requests handed to [loader.load] that have not called back yet:
      the url and the promise whose [resolve]/[reject] the callbacks hold *)
  outstanding : list (string * PromiseId);
  (** every url ever passed to [loader.load], oldest first *)
  loadLog : list string;
  (** every texture on which [dispose()] was called, oldest first *)
  disposeLog : list Texture
}.

Definition init : State :=
  mkState ∅ ∅ ∅ 0 [] [] [].

(** [resolve]/[reject] of a promise: only a pending promise settles. *)
Definition settle (p : PromiseId) (v : PromiseState)
    (h : gmap PromiseId PromiseState) : gmap PromiseId PromiseState :=
  match h !! p with
  | Some Pending => <[p := v]> h
  | _ => h
  end.

(** [preloadTexture(url)]. *)
Definition preloadTexture (url : string) (s : State) : PromiseId * State :=
  match globalTextureCache s !! url with
  | Some tex =>
      (* Promise.resolve(globalTextureCache.get(url)!) *)
      let p := nextPromise s in
      (p, mkState (globalTextureCache s) (texturePromises s)
                  (<[p := Fulfilled tex]> (promiseHeap s)) (S p)
                  (outstanding s) (loadLog s) (disposeLog s))
  | None =>
      match texturePromises s !! url with
      | Some p => (p, s)
      | None =>
          let p := nextPromise s in
          (p, mkState (globalTextureCache s)
                      (<[url := p]> (texturePromises s))
                      (<[p := Pending]> (promiseHeap s)) (S p)
                      (outstanding s ++ [(url, p)])
                      (loadLog s ++ [url]) (disposeLog s))
      end
  end.

(** What the success callback does to the texture it receives. *)
Definition configure (tex : Texture) : Texture :=
  let tex1 := mkTexture (tex_id tex) RepeatWrapping RepeatWrapping (1, 1)
                (has_colorSpace tex) (colorSpace tex) (encoding tex)
                (needsUpdate tex) in
  let tex2 :=
    if has_colorSpace tex1
    then mkTexture (tex_id tex1) (wrapS tex1) (wrapT tex1) (repeat_xy tex1)
           (has_colorSpace tex1) SRGBColorSpace (encoding tex1) (needsUpdate tex1)
    else mkTexture (tex_id tex1) (wrapS tex1) (wrapT tex1) (repeat_xy tex1)
           (has_colorSpace tex1) (colorSpace tex1) sRGBEncoding (needsUpdate tex1) in
  mkTexture (tex_id tex2) (wrapS tex2) (wrapT tex2) (repeat_xy tex2)
    (has_colorSpace tex2) (colorSpace tex2) (encoding tex2) true.

Definition remove_request (r : string * PromiseId)
    (l : list (string * PromiseId)) : list (string * PromiseId) :=
  filter (λ x, x ≠ r) l.

(** The success callback of the request [(url, p)], called with [tex]. *)
Definition onLoad (url : string) (p : PromiseId) (tex : Texture) (s : State) : State :=
  let tex' := configure tex in
  mkState (<[url := tex']> (globalTextureCache s))
          (delete url (texturePromises s))
          (settle p (Fulfilled tex') (promiseHeap s))
          (nextPromise s)
          (remove_request (url, p) (outstanding s))
          (loadLog s) (disposeLog s).

(** The error callback of the request [(url, p)], called with [err]. *)
Definition onError (url : string) (p : PromiseId) (err : LoadError) (s : State) : State :=
  mkState (globalTextureCache s)
          (delete url (texturePromises s))
          (settle p (Rejected err) (promiseHeap s))
          (nextPromise s)
          (remove_request (url, p) (outstanding s))
          (loadLog s) (disposeLog s).

(** JavaScript truthiness of a [string | null | undefined]: [None] stands
    for [null] and [undefined]; the empty string is falsy too. *)
Definition truthy (o : option string) : bool :=
  match o with
  | Some u => negb (String.eqb u "")
  | None => false
  end.

(** [getCachedTexture(url)]: a texture object is always truthy, so
    [get(url) || null] is the lookup itself. *)
Definition getCachedTexture (url : option string) (s : State) : option Texture * State :=
  if negb (truthy url) then (None, s)
  else match url with
       | Some u => (globalTextureCache s !! u, s)
       | None => (None, s)
       end.

(** [clearTextureCache()].  [forEach] visits the entries in insertion
    order; the log lists them in the map's own order, which the claims
    here do not distinguish. *)
Definition clearTextureCache (s : State) : State :=
  mkState ∅ ∅ (promiseHeap s) (nextPromise s) (outstanding s) (loadLog s)
          (disposeLog s ++ (map_to_list (globalTextureCache s)).*2).

(** What can happen to the cache: a call of one of its three functions,
    or one of the two callbacks of a request that has not called back yet. *)
Inductive Event :=
| Acquire (url : string)
| Lookup (url : option string)
| Loaded (url : string) (p : PromiseId) (tex : Texture)
| Failed (url : string) (p : PromiseId) (err : LoadError)
| Clear.

Definition step (e : Event) (s : State) : State :=
  match e with
  | Acquire url => snd (preloadTexture url s)
  | Lookup url => snd (getCachedTexture url s)
  | Loaded url p tex =>
      if bool_decide ((url, p) ∈ outstanding s) then onLoad url p tex s else s
  | Failed url p err =>
      if bool_decide ((url, p) ∈ outstanding s) then onError url p err s else s
  | Clear => clearTextureCache s
  end.

Definition run (es : list Event) (s : State) : State :=
  fold_left (λ s e, step e s) es s.

Definition reachable (s : State) : Prop := ∃ es, s = run es init.

(** Events that neither clear the cache nor are a callback for [url]. *)
Definition quiet (url : string) (e : Event) : bool :=
  match e with
  | Acquire _ | Lookup _ => true
  | Loaded u _ _ | Failed u _ _ => negb (String.eqb u url)
  | Clear => false
  end.

(** Events that neither clear the cache nor are a callback of a request
    for [url] other than the one that holds the promise [p]. *)
Definition calm (url : string) (p : PromiseId) (e : Event) : bool :=
  match e with
  | Acquire _ | Lookup _ => true
  | Loaded u q _ | Failed u q _ => negb (String.eqb u url) || bool_decide (q = p)
  | Clear => false
  end.

(** How often [url] was handed to the loader. *)
Definition loads_of (url : string) (s : State) : nat :=
  length (filter (λ u, u = url) (loadLog s)).

(** What every reachable state satisfies: the requests that have not
    called back hold distinct promises, all of them allocated and pending,
    and an entry of [texturePromises] belongs to such a request for a url
    that is not in the resolved cache. *)
Record wf (s : State) : Prop := mk_wf {
  wf_nodup : NoDup (outstanding s).*2;
  wf_pending : ∀ u p, (u, p) ∈ outstanding s →
     p < nextPromise s ∧ promiseHeap s !! p = Some Pending;
  wf_promises : ∀ u p, texturePromises s !! u = Some p →
     (u, p) ∈ outstanding s ∧ globalTextureCache s !! u = None
}.

End TextureCache.

(** ** The selections of the wizard ([types.ts]) *)

Module Types.

Inductive PaperType := unbleached | hemp | bleached | colored | rice | bamboo.
Inductive FilterType := folded | spiral | ceramic | glass | wooden | ball.
Inductive ConeSize := size70mm | size84mm | size98mm | size109mm.
Inductive LotSize := sample | small | medium | large | mega | bulk | custom.

#[global] Instance PaperType_eq_dec : EqDecision PaperType.
Proof. solve_decision. Defined.
#[global] Instance FilterType_eq_dec : EqDecision FilterType.
Proof. solve_decision. Defined.

Definition PaperType_code (k : PaperType) : nat :=
  match k with
  | unbleached => 0 | hemp => 1 | bleached => 2
  | colored => 3 | rice => 4 | bamboo => 5
  end.

Definition PaperType_of_code (n : nat) : option PaperType :=
  match n with
  | 0 => Some unbleached | 1 => Some hemp | 2 => Some bleached
  | 3 => Some colored | 4 => Some rice | 5 => Some bamboo
  | _ => None
  end.

#[global] Instance PaperType_countable : Countable PaperType.
Proof.
  apply (inj_countable PaperType_code PaperType_of_code).
  intros []; reflexivity.
Defined.

(** [null] and [undefined] are both [None]. *)
Record CustomizationState := mkCustomizationState {
  paperType : option PaperType;
  filterType : option FilterType;
  coneSize : option ConeSize;
  lotSize : option LotSize;
  paperColorHex : option string;
  filterColorHex : option string;
  paperTextureUrl : option string;
  filterTextureUrl : option string;
  customQuantity : string;
  country : string;
  zipCode : string
}.

End Types.

(** ** Procedural paper textures ([PaperViewer.tsx]) *)

Module Procedural.

Import Types.

Section Noise.
Local Open Scope R_scope.

(** The loop of [fractalNoise]: [n] further iterations from the
    accumulators [(value, amplitude, frequency, maxValue)]. *)
Fixpoint noise_loop (n : nat) (x y value amplitude frequency maxValue : R)
    : R * R :=
  match n with
  | O => (value, maxValue)
  | S m =>
      noise_loop m x y
        (value + sin (x * frequency) * cos (y * frequency) * amplitude)
        (amplitude * 0.5) (frequency * 2) (maxValue + amplitude)
  end.

(** [fractalNoise(x, y, octaves, scale, intensity)] for a whole number
    of octaves. *)
Definition fractalNoise (x y : R) (octaves : nat) (scale intensity : R) : R :=
  let '(value, maxValue) := noise_loop octaves x y 0 1 scale 0 in
  (value / maxValue) * intensity.

(** The colour a grid cell gets before it is clamped and stored:
    the [switch (effectiveType)] of [generatePaperTexture]. *)
Definition cell_rgba (effectiveType : PaperType) (x y : R) : R * R * R * R :=
  match effectiveType with
  | unbleached =>
      let noiseValue := fractalNoise x y 3 6 0.2 in
      let grainValue := fractalNoise (x * 3) (y * 3) 2 20 0.15 in
      (139 + noiseValue * 35 + grainValue * 15,
       111 + noiseValue * 30 + grainValue * 12,
       71 + noiseValue * 25 + grainValue * 10, 255)
  | hemp =>
      let noiseValue := fractalNoise x y 3 5 0.15 in
      let grainValue := fractalNoise (x * 2.5) (y * 2.5) 2 15 0.1 in
      (159 + noiseValue * 25 + grainValue * 10,
       175 + noiseValue * 20 + grainValue * 8,
       138 + noiseValue * 22 + grainValue * 12, 255)
  | bleached =>
      let noiseValue := fractalNoise x y 2 4 0.04 in
      let grainValue := fractalNoise (x * 6) (y * 6) 1 25 0.02 in
      (249 + noiseValue * 5 + grainValue * 2,
       250 + noiseValue * 4 + grainValue * 2,
       251 + noiseValue * 3 + grainValue * 2, 255)
  | colored =>
      let noiseValue := fractalNoise x y 2 4 0.05 in
      let grainValue := fractalNoise (x * 5) (y * 5) 1 20 0.03 in
      (249 + noiseValue * 6 + grainValue * 3,
       115 + noiseValue * 5 + grainValue * 2,
       22 + noiseValue * 4 + grainValue * 2, 255)
  | rice =>
      let noiseValue := fractalNoise x y 2 3 0.025 in
      let grainValue := fractalNoise (x * 8) (y * 8) 1 30 0.015 in
      (245 + noiseValue * 8 + grainValue * 3,
       245 + noiseValue * 8 + grainValue * 3,
       240 + noiseValue * 8 + grainValue * 3, 240)
  | bamboo =>
      let noiseValue := fractalNoise x y 4 7 0.22 in
      let grainValue := fractalNoise (x * 2) (y * 2) 3 12 0.12 in
      let fiberPattern := Rabs (sin (x * 2 + y * 0.5)) * 0.08 in
      (212 + noiseValue * 30 + grainValue * 18 + fiberPattern * 15,
       196 + noiseValue * 25 + grainValue * 15 + fiberPattern * 12,
       168 + noiseValue * 27 + grainValue * 16 + fiberPattern * 10, 255)
  end.

(** [Math.max(0, Math.min(255, v))]. *)
Definition clamp_channel (v : R) : R := Rmax 0 (Rmin 255 v).

Definition size : nat := 512.

(** The four values written at [(i * size + j) * 4 ..] for the cell
    [(i, j)]; the byte array keeps the integer part of each. *)
Definition texel (effectiveType : PaperType) (i j : nat) : R * R * R * R :=
  let x := (INR i / INR size) * 12 in
  let y := (INR j / INR size) * 12 in
  let '(r, g, b, a) := cell_rgba effectiveType x y in
  (clamp_channel r, clamp_channel g, clamp_channel b, clamp_channel a).
End Noise.

(** A [THREE.DataTexture] object: [dt_id] is the identity of the object,
    [dt_kind] the paper type whose [texel]s fill its 512 x 512 x 4 bytes. *)
Record DataTexture := mkDataTexture {
  dt_id : nat;
  dt_kind : PaperType;
  dt_width : nat;
  dt_height : nat;
  dt_wrapS : TextureCache.Wrapping;
  dt_wrapT : TextureCache.Wrapping;
  dt_repeat : nat * nat;
  dt_needsUpdate : bool
}.

#[global] Instance DataTexture_eq_dec : EqDecision DataTexture.
Proof. solve_decision. Defined.

Record State := mkState {
  proceduralTextureCache : gmap PaperType DataTexture;
  (** identity of the next object that [new THREE.DataTexture] creates *)
  nextObject : nat;
  (** the effective type of every run of [generatePaperTexture] *)
  generated : list PaperType
}.

Definition init : State := mkState ∅ 0 [].

(** [paperType ?? "hemp"]. *)
Definition effective (paperType : option PaperType) : PaperType :=
  match paperType with
  | Some k => k
  | None => hemp
  end.

(** [generatePaperTexture(paperType)]: a new object each time. *)
Definition generatePaperTexture (paperType : option PaperType) (s : State)
    : DataTexture * State :=
  let effectiveType := effective paperType in
  let texture :=
    mkDataTexture (nextObject s) effectiveType size size
      TextureCache.RepeatWrapping TextureCache.RepeatWrapping (1, 1) true in
  (texture, mkState (proceduralTextureCache s) (S (nextObject s))
                    (generated s ++ [effectiveType])).

(** [getProceduralTexture(paperType)]. *)
Definition getProceduralTexture (paperType : option PaperType) (s : State)
    : option DataTexture * State :=
  let effectiveType := effective paperType in
  let s1 :=
    match proceduralTextureCache s !! effectiveType with
    | None =>
        let '(texture, s') := generatePaperTexture (Some effectiveType) s in
        mkState (<[effectiveType := texture]> (proceduralTextureCache s'))
                (nextObject s') (generated s')
    | Some _ => s
    end in
  (proceduralTextureCache s1 !! effectiveType, s1).

(** A process: the calls of [getProceduralTexture] made so far. *)
Fixpoint run (calls : list (option PaperType)) (s : State) : State :=
  match calls with
  | [] => s
  | k :: rest => run rest (snd (getProceduralTexture k s))
  end.

(** How often [generatePaperTexture] ran for the effective type [k]. *)
Definition runs_of (k : PaperType) (s : State) : nat :=
  length (filter (λ j, j = k) (generated s)).

(** What every state of the memo table satisfies in a process: a cached
    buffer was generated for its key, by the only run for that key. *)
Record memo_inv (s : State) : Prop := mk_memo_inv {
  memo_kind : ∀ k t, proceduralTextureCache s !! k = Some t →
     dt_kind t = k ∧ dt_id t < nextObject s;
  memo_runs : ∀ k,
     runs_of k s = if proceduralTextureCache s !! k is Some _ then 1 else 0;
  memo_ids : ∀ k1 k2 t1 t2,
     proceduralTextureCache s !! k1 = Some t1 →
     proceduralTextureCache s !! k2 = Some t2 →
     dt_id t1 = dt_id t2 → k1 = k2
}.

Section Formula.
Local Open Scope R_scope.

(** The formula of the specification: the sum over [k = 0 .. n-1]. *)
Fixpoint sum_below (n : nat) (f : nat → R) : R :=
  match n with
  | O => 0
  | S m => sum_below m f + f m
  end.

Definition a_ (k : nat) : R := 0.5 ^ k.
Definition f_ (scale : R) (k : nat) : R := scale * 2 ^ k.

Definition fractal_formula (x y : R) (n : nat) (scale intensity : R) : R :=
  sum_below n (λ k, sin (x * f_ scale k) * cos (y * f_ scale k) * a_ k)
  / sum_below n a_ * intensity.
End Formula.

End Procedural.

(** ** Frame-driven transitions ([PaperViewer.tsx], [ConeMergeAnimtaion.tsx]) *)

Module Transition.

Local Open Scope R_scope.

(** [a >= b] and [a < b] on numbers, as booleans. *)
Definition geb (a b : R) : bool := if Rle_dec b a then true else false.
Definition ltb (a b : R) : bool := if Rlt_dec a b then true else false.

(** The state of an [AnimatedPaper]: its two [useState] cells, the
    one-shot ref, and how often [onTransitionComplete] has been called. *)
Record PaperSession := mkPaperSession {
  scaleY : R;
  rollProgress : R;
  transitionCompleteRef : bool;
  completions : nat
}.

(** The state at mount. *)
Definition paper_mount : PaperSession := mkPaperSession 0.1 0 false 0.

(** The effect that runs when [isTransitioning] (or a selection) changes. *)
Definition paper_effect (isTransitioning : bool) (s : PaperSession) : PaperSession :=
  if isTransitioning
  then mkPaperSession (scaleY s) 0 false (completions s)
  else mkPaperSession 0.1 0 (transitionCompleteRef s) (completions s).

(** The state updates of [AnimatedPaper]'s [useFrame] callback for one
    frame of length [delta], in exact arithmetic.  [rate] is the literal
    [0.8] of the source (the same update, with the same literal, drives
    [AnimatedFilterPaper]).  The frame at which the sum of the steps
    reaches 1 can differ from the one at which the sum of doubles does:
    see [Doubles.paper_useFrame]. *)
Definition paper_useFrame (rate : R) (isTransitioning : bool) (delta : R)
    (s : PaperSession) : PaperSession :=
  if isTransitioning then
    let prev := rollProgress s in
    let next := prev + delta * rate in
    if geb next 1 && negb (transitionCompleteRef s)
    then mkPaperSession (scaleY s) 1 true (S (completions s))
    else mkPaperSession (scaleY s) (Rmin 1 next) (transitionCompleteRef s) (completions s)
  else
    let prev := scaleY s in
    let target := 1 in
    let next := prev + (target - prev) * Rmin 1 (delta * 6) in
    mkPaperSession (if Rlt_dec 0.99 next then 1 else next)
      (rollProgress s) (transitionCompleteRef s) (completions s).

Definition AnimatedPaper_useFrame := paper_useFrame 0.8.

(** The state of a [MergingScene]; [scheduled] counts the calls of
    [setTimeout(() => onAnimationComplete?.(), 300)]. *)
Record MergeSession := mkMergeSession {
  animProgress : R;
  animationCompleteRef : bool;
  scheduled : nat
}.

Definition merge_mount : MergeSession := mkMergeSession 0 false 0.

Definition merge_effect (isAnimating : bool) (s : MergeSession) : MergeSession :=
  if isAnimating then mkMergeSession 0 false (scheduled s) else s.

(** The state updates of [MergingScene]'s [useFrame] callback, in exact
    arithmetic; [rate] is the literal [0.35] of the source.  [scheduled]
    counts the timeouts set, not the calls they make later: see
    [Doubles.merge_useFrame] and [Doubles.merge_timeout]. *)
Definition merge_useFrame (rate : R) (isAnimating : bool) (delta : R)
    (s : MergeSession) : MergeSession :=
  if isAnimating && ltb (animProgress s) 1 then
    let newProgress := Rmin 1 (animProgress s + delta * rate) in
    if geb newProgress 1 && negb (animationCompleteRef s)
    then mkMergeSession newProgress true (S (scheduled s))
    else mkMergeSession newProgress (animationCompleteRef s) (scheduled s)
  else s.

Definition MergingScene_useFrame := merge_useFrame 0.35.

(** A transition: the effect for [isTransitioning = true], then one frame
    per element of [deltas], oldest first. *)
Definition paper_run (rate : R) (deltas : list R) : PaperSession :=
  fold_left (fun s d => paper_useFrame rate true d s) deltas
    (paper_effect true paper_mount).

Definition merge_run (rate : R) (deltas : list R) : MergeSession :=
  fold_left (fun s d => merge_useFrame rate true d s) deltas
    (merge_effect true merge_mount).

(** Total elapsed time. *)
Definition elapsed (deltas : list R) : R := fold_right Rplus 0 deltas.

(** What holds of a session after total time [T] at rate [rate]: the
    progress, the one-shot flag and the number of completion calls. *)
Record session_inv (rate T : R) (progress : R) (flag : bool) (count : nat) : Prop :=
  mk_session_inv {
    inv_progress : progress = Rmin 1 (rate * T);
    inv_flag : flag = true ↔ 1 <= rate * T;
    inv_count : count = if flag then 1%nat else 0%nat
  }.

End Transition.

(** ** The merge animation's phases ([ConeMergeAnimtaion.tsx]) *)

Module Merge.

Import Types.
Local Open Scope R_scope.

Definition easeInOutCubic (t : R) : R :=
  if Rlt_dec t 0.5 then 4 * t * t * t else 1 - (-2 * t + 2) ^ 3 / 2.

Definition easeOutQuart (t : R) : R := 1 - (1 - t) ^ 4.

Definition phase1 (animProgress : R) : R := Rmin 1 (animProgress * 2.5).
Definition phase2 (animProgress : R) : R := Rmax 0 (Rmin 1 ((animProgress - 0.4) * 2)).
Definition phase3 (animProgress : R) : R := Rmax 0 (Rmin 1 ((animProgress - 0.7) * 3.33)).

(** What one animating frame computes from [animProgress] before it
    writes positions, rotations and geometries. *)
Record Frame := mkFrame {
  moveEase : R;
  rotateEase : R;
  coneEase : R;
  paperX : R;
  filterX : R;
  rotationAngle : R;
  paperTopRadius : R;
  paperBottomRadius : R;
  paperHeight : R;
  paperY : R;
  filterTopRadius : R;
  filterBottomRadius : R;
  filterHeight : R;
  filterY : R;
  paperPositionX : R;
  filterPositionX : R;
  groupRotationY : R;
  rebuildGeometry : bool
}.

Definition animating_frame (filterType : option FilterType) (animProgress : R) : Frame :=
  let phase1 := phase1 animProgress in
  let phase2 := phase2 animProgress in
  let phase3 := phase3 animProgress in
  let moveEase := easeInOutCubic phase1 in
  let paperX := 1.8 - moveEase * 1.8 in
  let filterX := -1.8 + moveEase * 1.8 in
  let rotateEase := easeOutQuart phase2 in
  let rotationAngle := - PI / 2 + rotateEase * (PI / 2) in
  let coneEase := easeInOutCubic phase3 in
  let paperTopRadius := 0.20 + coneEase * (0.18 - 0.20) in
  let paperBottomRadius := 0.35 - coneEase * (0.35 - 0.12) in
  let paperHeight := 4 - coneEase * (4 - 2.8) in
  let paperY := coneEase * 1.5 in
  let filterTopRadius := 0.20 - coneEase * (0.20 - 0.12) in
  let filterBottomRadius :=
    if decide (filterType = Some wooden)
    then 0.28 - coneEase * (0.28 - 0.14)
    else 0.20 - coneEase * (0.20 - 0.14) in
  let filterHeight := 1.2 - coneEase * (1.2 - 0.6) in
  let filterY := paperY - (paperHeight / 2) - (filterHeight / 2) * coneEase in
  mkFrame moveEase rotateEase coneEase paperX filterX rotationAngle
    paperTopRadius paperBottomRadius paperHeight paperY
    filterTopRadius filterBottomRadius filterHeight filterY
    (paperX * (1 - phase2)) (filterX * (1 - phase2))
    (phase2 * PI * 0.3)
    (if Rlt_dec 0 phase3 then true else false).

(** [new THREE.CylinderGeometry(radiusTop, radiusBottom, height,
    radialSegments, heightSegments, openEnded)]; the last two default to
    [1] and [false]. *)
Record CylinderGeometry := mkCylinderGeometry {
  radiusTop : R;
  radiusBottom : R;
  height : R;
  radialSegments : nat;
  heightSegments : nat;
  openEnded : bool
}.

(** The geometries an animating frame builds for the paper mesh and for
    the filter mesh; the wooden filter gets a narrower top. *)
Definition paper_geometry (fr : Frame) : CylinderGeometry :=
  mkCylinderGeometry (paperTopRadius fr) (paperBottomRadius fr) (paperHeight fr)
    80 1 true.

Definition filter_geometry (filterType : option FilterType) (fr : Frame)
    : CylinderGeometry :=
  if decide (filterType = Some wooden)
  then mkCylinderGeometry (filterTopRadius fr * 0.64) (filterBottomRadius fr)
         (filterHeight fr) 48 1 false
  else mkCylinderGeometry (filterTopRadius fr) (filterBottomRadius fr)
         (filterHeight fr) 48 1 false.

(** The geometries are replaced only when [phase3 > 0]; otherwise the
    meshes keep the ones they have. *)
Definition rebuilt_geometries (filterType : option FilterType) (animProgress : R)
    : option (CylinderGeometry * CylinderGeometry) :=
  let fr := animating_frame filterType animProgress in
  if rebuildGeometry fr
  then Some (paper_geometry fr, filter_geometry filterType fr)
  else None.

(** The spec's window: [clamp(v, lo, hi)]. *)
Definition clamp (v lo hi : R) : R := Rmax lo (Rmin hi v).

(** The spec's re-normalisation of the master progress to a window. *)
Definition window (progress windowStart windowScale : R) : R :=
  clamp ((progress - windowStart) * windowScale) 0 1.

End Merge.

(** ** Which texture map a material receives ([PaperViewer.tsx], [ConeViewer.tsx]) *)

Module Render.

Import Types.
Local Open Scope R_scope.

(** What a material's [map] can hold. *)
Inductive MapTexture :=
| Custom (tex : TextureCache.Texture)
| Generated (tex : Procedural.DataTexture)
| Wood
| Clone (source : MapTexture).

(** A colour handed to a material: a hex string, or the hex string of
    [new THREE.Color(base).multiplyScalar(0.6)]. *)
Inductive Color :=
| Hex (s : string)
| Dimmed (base : string).

Record Material := mkMaterial {
  color : Color;
  roughness : R;
  metalness : R;
  map : option MapTexture
}.

(** [a || b] on an optional string with a string default. *)
Definition or_default (a : option string) (b : string) : string :=
  match a with
  | Some s => if TextureCache.truthy a then s else b
  | None => b
  end.

(** [a ?? b]. *)
Definition nullish {A} (a b : option A) : option A :=
  match a with
  | Some x => Some x
  | None => b
  end.

(** *** [AnimatedPaper] *)

Record PaperViewerProps := mkPaperViewerProps {
  pv_paperType : option PaperType;
  pv_paperColorHex : option string;
  pv_paperTextureUrl : option string;
  pv_isTransitioning : bool
}.

Definition defaultPaperColors (k : PaperType) : string :=
  match k with
  | unbleached => "#8B6F47"
  | hemp => "#9FAF8A"
  | bleached => "#F9FAFB"
  | colored => "#690c0f"
  | rice => "#F5F5F0"
  | bamboo => "#D4C4A8"
  end.

Definition materialProps (paperType : option PaperType) : R * R :=
  match Procedural.effective paperType with
  | unbleached => (0.9, 0.02)
  | hemp => (0.85, 0.03)
  | bleached => (0.7, 0.05)
  | colored => (0.72, 0.04)
  | rice => (0.6, 0.08)
  | bamboo => (0.88, 0.02)
  end.

(** [proceduralTexture]: generated only when no texture url is set. *)
Definition proceduralTexture (paperType : option PaperType)
    (paperTextureUrl : option string) (ps : Procedural.State)
    : option Procedural.DataTexture * Procedural.State :=
  if negb (TextureCache.truthy paperTextureUrl)
  then Procedural.getProceduralTexture paperType ps
  else (None, ps).

(** [effectiveTexture = customTexture ?? proceduralTexture]. *)
Definition effectiveTexture (customTexture : option TextureCache.Texture)
    (procedural : option Procedural.DataTexture) : option MapTexture :=
  nullish (Custom <$> customTexture) (Generated <$> procedural).

(** [effectiveTextureOrNull = paperColorHex ? null : effectiveTexture]. *)
Definition effectiveTextureOrNull (paperColorHex : option string)
    (effective : option MapTexture) : option MapTexture :=
  if TextureCache.truthy paperColorHex then None else effective.

Inductive PaperMesh :=
| RollMesh (m : Material)
| FlatMesh (m : Material).

(** One render of [AnimatedPaper].  [customTexture] is the current value
    of the [useOptionalTexture] hook and [rollProgress] of its state cell. *)
Definition AnimatedPaper (props : PaperViewerProps)
    (customTexture : option TextureCache.Texture) (rollProgress : R)
    (ps : Procedural.State) : PaperMesh * Procedural.State :=
  let '(procedural, ps') :=
    proceduralTexture (pv_paperType props) (pv_paperTextureUrl props) ps in
  let effective := effectiveTexture customTexture procedural in
  let baseColor :=
    or_default (pv_paperColorHex props)
      (defaultPaperColors (Procedural.effective (pv_paperType props))) in
  let orNull := effectiveTextureOrNull (pv_paperColorHex props) effective in
  let '(rough, metal) := materialProps (pv_paperType props) in
  if pv_isTransitioning props && Transition.ltb 0.1 rollProgress
  then (RollMesh (mkMaterial (Hex baseColor) rough metal orNull), ps')
  else (FlatMesh (mkMaterial (Hex baseColor) rough metal effective), ps').

(** *** [ConeMesh] *)

Definition paperColorMap (k : PaperType) : string :=
  match k with
  | unbleached => "#8B6F47"
  | hemp => "#A8E6CF"
  | bleached => "#F9FAFB"
  | colored => "#F97316"
  | rice => "#F5F5F0"
  | bamboo => "#D4C4A8"
  end.

Definition filterColorMap (k : FilterType) : string :=
  match k with
  | folded => "#CBD5F5"
  | spiral => "#0EA5E9"
  | ceramic => "#E5E7EB"
  | glass => "#A5F3FC"
  | wooden => "#D4A574"
  | ball => "#FFB84D"
  end.

Definition getPaperRoughness (paperType : option PaperType) : R :=
  match paperType with
  | None => 0.62
  | Some unbleached => 0.9
  | Some hemp => 0.85
  | Some bleached => 0.7
  | Some colored => 0.72
  | Some rice => 0.6
  | Some bamboo => 0.88
  end.

(** [paperUrl && filterUrl && paperUrl === filterUrl], as a truth value. *)
Definition sameTextureUrl (state : CustomizationState) : bool :=
  TextureCache.truthy (paperTextureUrl state)
  && TextureCache.truthy (filterTextureUrl state)
  && bool_decide (paperTextureUrl state = filterTextureUrl state).

(** The effect that fills [paperMap] and [filterMap]: a clone of each
    source that is not null. *)
Definition ConeMesh_maps (state : CustomizationState)
    (basePaperTexture baseFilterTexture : option TextureCache.Texture)
    (ps : Procedural.State)
    : option MapTexture * option MapTexture * Procedural.State :=
  let baseSharedTexture :=
    if sameTextureUrl state
    then nullish basePaperTexture baseFilterTexture else None in
  let '(proceduralPaperTexture, ps') :=
    proceduralTexture (paperType state) (paperTextureUrl state) ps in
  let paperSource :=
    nullish (Custom <$> baseSharedTexture)
      (nullish (Custom <$> basePaperTexture) (Generated <$> proceduralPaperTexture)) in
  let filterSource :=
    nullish (Custom <$> baseSharedTexture) (Custom <$> baseFilterTexture) in
  (Clone <$> paperSource, Clone <$> filterSource, ps').

(** The material of the cone's paper mesh once the effect has run. *)
Definition ConeMesh_paper (state : CustomizationState)
    (basePaperTexture baseFilterTexture : option TextureCache.Texture)
    (ps : Procedural.State) : Material :=
  let '(paperMap, _, _) :=
    ConeMesh_maps state basePaperTexture baseFilterTexture ps in
  let paperColor :=
    Dimmed (or_default (paperColorHex state)
              (paperColorMap (Procedural.effective (paperType state)))) in
  mkMaterial paperColor
    (if paperMap is Some _ then 0.85 else getPaperRoughness (paperType state))
    0 paperMap.

(** The material of the cone's filter mesh once the effect has run. *)
Definition ConeMesh_filter (state : CustomizationState)
    (basePaperTexture baseFilterTexture : option TextureCache.Texture)
    (ps : Procedural.State) : Material :=
  let '(_, filterMap, _) :=
    ConeMesh_maps state basePaperTexture baseFilterTexture ps in
  let filterColor :=
    Dimmed (or_default (filterColorHex state)
              (match filterType state with
               | Some k => filterColorMap k
               | None => "#E5E7EB"
               end)) in
  match filterType state with
  | Some ceramic => mkMaterial (Hex "#f7f7f5") 0.55 0 None
  | Some glass => mkMaterial filterColor (if filterMap is Some _ then 0.3 else 0.35) 0.6 filterMap
  | Some wooden => mkMaterial (Hex "#C9A876") 0.9 0.02 (Some Wood)
  | Some ball => mkMaterial (Hex "#FFB84D") 0.6 0.18 None
  | _ => mkMaterial filterColor (if filterMap is Some _ then 0.7 else 0.75) 0 filterMap
  end.

(** The same selections with other colour overrides. *)
Definition with_colors (paperColor filterColor : option string)
    (state : CustomizationState) : CustomizationState :=
  mkCustomizationState (paperType state) (filterType state) (coneSize state)
    (lotSize state) paperColor filterColor
    (paperTextureUrl state) (filterTextureUrl state)
    (customQuantity state) (country state) (zipCode state).

(** A selection with both colour overrides and an uploaded filter image,
    and the texture loaded from that image. *)
Definition tinted_state : CustomizationState :=
  mkCustomizationState (Some hemp) (Some glass) (Some size84mm) None
    (Some "#ff0000") (Some "#00ff00")
    None (Some "data:image/png;base64,iVBORw0KGgo=")
    "" "" "".

Definition uploaded_texture : TextureCache.Texture :=
  TextureCache.configure
    (TextureCache.mkTexture 7 TextureCache.ClampToEdgeWrapping
       TextureCache.ClampToEdgeWrapping (1%nat, 1%nat) true
       TextureCache.NoColorSpace TextureCache.LinearEncoding false).

End Render.

(** ** Further invariants of the texture cache *)

Module CacheInv.

Import TextureCache.

(** Bookkeeping every reachable state keeps: promise objects are
    allocated below [nextPromise], and every url with a request that has
    not called back, or with a resolved texture, was handed to the loader. *)
Record accounted (s : State) : Prop := mk_accounted {
  acc_heap : ∀ p, is_Some (promiseHeap s !! p) → p < nextPromise s;
  acc_outstanding : ∀ u p, (u, p) ∈ outstanding s → u ∈ loadLog s;
  acc_cache : ∀ u, is_Some (globalTextureCache s !! u) → u ∈ loadLog s
}.

(** Events other than [clearTextureCache()]. *)
Definition no_clear (e : Event) : bool :=
  match e with
  | Clear => false
  | _ => true
  end.

End CacheInv.

(** ** The base colour of each paper texture ([generatePaperTexture]) *)

Module PaperPalette.

Import Types.
Local Open Scope R_scope.

(** The constant term of each channel in [generatePaperTexture]. *)
Definition base_rgba (k : PaperType) : R * R * R * R :=
  match k with
  | unbleached => (139, 111, 71, 255)
  | hemp => (159, 175, 138, 255)
  | bleached => (249, 250, 251, 255)
  | colored => (249, 115, 22, 255)
  | rice => (245, 245, 240, 240)
  | bamboo => (212, 196, 168, 255)
  end.

End PaperPalette.

(** ** The flat paper outside a transition *)

Module Sessions.

Import Transition.
Local Open Scope R_scope.

(** [AnimatedPaper] outside a transition: the effect for
    [isTransitioning = false], then one frame per element of [deltas]. *)
Definition unfold_run (deltas : list R) : PaperSession :=
  fold_left (fun s d => AnimatedPaper_useFrame false d s) deltas
    (paper_effect false paper_mount).

End Sessions.

(** ** Quantities and prices ([types.ts]) *)

Module Pricing.

Import Types.
Local Open Scope R_scope.

Section WithParseInt.

(** The built-in [parseInt] on the text of the quantity field; [None] is
    [NaN]. *)
Variable parseInt : string → option R.

(** [parseInt(s) || 0]: [NaN] and [0] both give [0]. *)
Definition or_zero (n : option R) : R :=
  match n with
  | Some v => v
  | None => 0
  end.

Definition getQuantity (state : CustomizationState) : R :=
  match lotSize state with
  | Some custom =>
      let qty := or_zero (parseInt (customQuantity state)) in
      if Rlt_dec 0 qty then qty else 0
  | Some sample => 125
  | Some small => 6500
  | Some medium => 50000
  | Some large => 100000
  | _ => 0
  end.

Definition getPricePerCone (state : CustomizationState) : R :=
  let quantity := getQuantity state in
  if Rle_dec 100000 quantity then 0.4
  else if Rle_dec 50000 quantity then 0.45
  else if Rle_dec 10000 quantity then 0.5
  else if Rle_dec 5000 quantity then 0.55
  else if Rle_dec 1000 quantity then 0.6
  else if Rle_dec 200 quantity then 0.65
  else 0.75.

Definition getTotalPriceNumber (state : CustomizationState) : R :=
  let quantity := getQuantity state in
  let pricePerCone := getPricePerCone state in
  quantity * pricePerCone.

End WithParseInt.

(** The quantities at which the price per cone drops. *)
Definition tier_starts : list R := [200; 1000; 5000; 10000; 50000; 100000].

(** An order of a custom quantity, the field holding [text]. *)
Definition custom_order (text : string) : CustomizationState :=
  mkCustomizationState (Some hemp) (Some folded) (Some size84mm) (Some custom)
    None None None None text "" "".

End Pricing.

(** ** The steps of the wizard ([BuildPage]) *)

Module Wizard.

(** [nextStep] and [prevStep], on the step number. *)
Definition nextStep (step : nat) : nat := if step <? 5 then step + 1 else step.
Definition prevStep (step : nat) : nat := if 0 <? step then step - 1 else step.

Inductive Button := Next | Previous.

Definition press (step : nat) (b : Button) : nat :=
  match b with
  | Next => nextStep step
  | Previous => prevStep step
  end.

(** The step number after a sequence of presses, starting at step 0. *)
Definition walk (presses : list Button) : nat := fold_left press presses 0.

(** The component the page renders for a step number. *)
Inductive StepView := Step0 | Step1 | Step2 | Step3 | Step4.

Definition rendered (step : nat) : option StepView :=
  match step with
  | 0 => Some Step0
  | 1 => Some Step1
  | 2 => Some Step2
  | 3 => Some Step3
  | 4 => Some Step4
  | _ => None
  end.

(** [showBottomPreview = step >= 1 && step <= 4]. *)
Definition showBottomPreview (step : nat) : bool := (1 <=? step) && (step <=? 4).

End Wizard.

(** ** The outline of the flat filter paper ([BottomPreview.tsx]) *)

Module Shapes.

Local Open Scope R_scope.

(** The calls made on the [THREE.Shape], in order. *)
Inductive PathCmd :=
| MoveTo (x y : R)
| LineTo (x y : R).

Definition segments : nat := 32.

(** [angle] of the loop bodies. *)
Definition angle_at (startAngle endAngle : R) (i : nat) : R :=
  startAngle + (endAngle - startAngle) * (INR i / INR segments).

(** The outer arc: [for (i = 0; i <= segments; i++)]. *)
Definition outer_arc (outerRadius startAngle endAngle : R) : list PathCmd :=
  List.map (fun i =>
         let angle := angle_at startAngle endAngle i in
         let x := outerRadius * cos angle in
         let y := outerRadius * sin angle in
         if Nat.eqb i 0 then MoveTo x y else LineTo x y)
      (seq 0 (S segments)).

(** The inner arc: [for (i = segments; i >= 0; i--)]. *)
Definition inner_arc (innerRadius startAngle endAngle : R) : list PathCmd :=
  List.map (fun i =>
         let angle := angle_at startAngle endAngle i in
         LineTo (innerRadius * cos angle) (innerRadius * sin angle))
      (rev (seq 0 (S segments))).

Definition createAnnularSectorShape (innerRadius outerRadius startAngle endAngle : R)
    : list PathCmd :=
  outer_arc outerRadius startAngle endAngle
  ++ inner_arc innerRadius startAngle endAngle
  ++ [LineTo (outerRadius * cos startAngle) (outerRadius * sin startAngle)].

Definition point (c : PathCmd) : R * R :=
  match c with
  | MoveTo x y => (x, y)
  | LineTo x y => (x, y)
  end.

(** The squared distance of a point from the origin. *)
Definition norm2 (q : R * R) : R := fst q * fst q + snd q * snd q.

End Shapes.

(** ** The wood texture ([ConeMergeAnimtaion.tsx]) *)

Module Wood.

Local Open Scope R_scope.

(** The three colour channels of a cell of [generateWoodTexture] before
    they are clamped and stored. *)
Definition wood_rgb (x y : R) : R * R * R :=
  let grain := sin (y * 0.5) * 0.3 + sin (y * 2) * 0.1 in
  let rings := sin (x * 0.3) * 0.2 in
  let noise1 := sin (x * 3 + y * 0.5) * 0.1 in
  let noise2 := sin (x * 7 + y * 1.2) * 0.05 in
  let r := 200 + grain * 30 + rings * 20 + noise1 * 15 + noise2 * 10 in
  let g := 168 + grain * 25 + rings * 15 + noise1 * 12 + noise2 * 8 in
  let b := 118 + grain * 20 + rings * 12 + noise1 * 10 + noise2 * 6 in
  let darkGrain := if Rlt_dec (Rabs (sin (y * 0.5))) 0.1 then 0.7 else 1.0 in
  (r * darkGrain, g * darkGrain, b * darkGrain).

(** The four values written for the cell [(i, j)]. *)
Definition wood_texel (i j : nat) : R * R * R * R :=
  let x := (INR i / INR Procedural.size) * 20 in
  let y := (INR j / INR Procedural.size) * 20 in
  let '(r, g, b) := wood_rgb x y in
  (Procedural.clamp_channel r, Procedural.clamp_channel g,
   Procedural.clamp_channel b, 255).

End Wood.

(** ** The transitions in double precision ([PaperViewer.tsx], [ConeMergeAnimtaion.tsx]) *)

Module Doubles.

Local Open Scope float_scope.
#[local] Set Warnings "-inexact-float".

(** [a >= b] and [a < b] on doubles: both are false when an operand is
    [NaN]. *)
Definition geb (a b : float) : bool := b <=? a.
Definition ltb (a b : float) : bool := a <? b.

(** [Math.min(a, b)]: [NaN] when an argument is [NaN], and [-0] counts as
    smaller than [+0]. *)
Definition Math_min (a b : float) : float :=
  if orb (is_nan a) (is_nan b) then nan
  else if a <? b then a
  else if b <? a then b
  else match classify a with
       | NZero => a
       | _ => b
       end.

(** The state of an [AnimatedPaper]: its two [useState] cells, the
    one-shot ref, and how often [onTransitionComplete] has been called. *)
Record PaperSession := mkPaperSession {
  scaleY : float;
  rollProgress : float;
  transitionCompleteRef : bool;
  completions : nat
}.

Definition paper_mount : PaperSession := mkPaperSession 0.1 0 false 0.

(** The effect that runs when [isTransitioning] (or a selection) changes. *)
Definition paper_effect (isTransitioning : bool) (s : PaperSession) : PaperSession :=
  if isTransitioning
  then mkPaperSession (scaleY s) 0 false (completions s)
  else mkPaperSession 0.1 0 (transitionCompleteRef s) (completions s).

(** The state updates of [AnimatedPaper]'s [useFrame] callback for one
    frame of length [delta]; [rate] is the literal [0.8] of the source. *)
Definition paper_useFrame (rate : float) (isTransitioning : bool) (delta : float)
    (s : PaperSession) : PaperSession :=
  if isTransitioning then
    let prev := rollProgress s in
    let next := prev + delta * rate in
    if geb next 1 && negb (transitionCompleteRef s)
    then mkPaperSession (scaleY s) 1 true (S (completions s))
    else mkPaperSession (scaleY s) (Math_min 1 next) (transitionCompleteRef s)
           (completions s)
  else
    let prev := scaleY s in
    let target := 1 in
    let next := prev + (target - prev) * Math_min 1 (delta * 6) in
    mkPaperSession (if ltb 0.99 next then 1 else next)
      (rollProgress s) (transitionCompleteRef s) (completions s).

Definition AnimatedPaper_useFrame := paper_useFrame 0.8.

(** The state of a [MergingScene]: [timers] counts the timeouts set by
    [setTimeout(() => onAnimationComplete?.(), 300)] that have not fired
    yet, [fired] the calls of [onAnimationComplete]. *)
Record MergeSession := mkMergeSession {
  animProgress : float;
  animationCompleteRef : bool;
  timers : nat;
  fired : nat
}.

Definition merge_mount : MergeSession := mkMergeSession 0 false 0 0.

(** The effect has no cleanup: a timeout that is pending stays pending. *)
Definition merge_effect (isAnimating : bool) (s : MergeSession) : MergeSession :=
  if isAnimating then mkMergeSession 0 false (timers s) (fired s) else s.

(** The state updates of [MergingScene]'s [useFrame] callback; [rate] is
    the literal [0.35] of the source. *)
Definition merge_useFrame (rate : float) (isAnimating : bool) (delta : float)
    (s : MergeSession) : MergeSession :=
  if isAnimating && ltb (animProgress s) 1 then
    let newProgress := Math_min 1 (animProgress s + delta * rate) in
    if geb newProgress 1 && negb (animationCompleteRef s)
    then mkMergeSession newProgress true (S (timers s)) (fired s)
    else mkMergeSession newProgress (animationCompleteRef s) (timers s) (fired s)
  else s.

Definition MergingScene_useFrame := merge_useFrame 0.35.

(** A pending timeout fires, 300 ms after it was set: the callback runs. *)
Definition merge_timeout (s : MergeSession) : MergeSession :=
  match timers s with
  | O => s
  | S n => mkMergeSession (animProgress s) (animationCompleteRef s) n (S (fired s))
  end.

(** What happens to a [MergingScene] while it animates. *)
Inductive MergeEvent :=
| Tick (delta : float)
| Timeout.

Definition merge_step (rate : float) (e : MergeEvent) (s : MergeSession) : MergeSession :=
  match e with
  | Tick delta => merge_useFrame rate true delta s
  | Timeout => merge_timeout s
  end.

(** A transition that starts in any state [s0] of the component: the
    effect runs with [isTransitioning = true], then one frame per element
    of [deltas], oldest first. *)
Definition paper_restart (rate : float) (deltas : list float) (s0 : PaperSession)
    : PaperSession :=
  fold_left (fun s d => paper_useFrame rate true d s) deltas (paper_effect true s0).

Definition merge_restart (rate : float) (events : list MergeEvent) (s0 : MergeSession)
    : MergeSession :=
  fold_left (fun s e => merge_step rate e s) events (merge_effect true s0).

(** The first transition after mount. *)
Definition paper_run (rate : float) (deltas : list float) : PaperSession :=
  paper_restart rate deltas paper_mount.

Definition merge_run (rate : float) (events : list MergeEvent) : MergeSession :=
  merge_restart rate events merge_mount.

(** Total elapsed time, summed as the clock does. *)
Definition elapsed (deltas : list float) : float := fold_left add deltas 0.



End Doubles.

(** * Properties *)

(** ** The texture cache *)

Module CacheFacts.

Import TextureCache.

Lemma truthy_Some (u : string) : truthy (Some u) = true ↔ u ≠ "".
Proof.
  unfold truthy. rewrite negb_true_iff.
  destruct (String.eqb_spec u ""); split; congruence.
Qed.

(** A request that is in flight is answered from [texturePromises]. *)
Lemma preloadTexture_in_flight (url : string) (p : PromiseId) (s : State) :
  globalTextureCache s !! url = None →
  texturePromises s !! url = Some p →
  preloadTexture url s = (p, s).
Proof. intros Hc Hp. unfold preloadTexture. by rewrite Hc, Hp. Qed.

(** A fresh url starts exactly one load and registers its promise. *)
Lemma preloadTexture_fresh (url : string) (s : State) :
  globalTextureCache s !! url = None →
  texturePromises s !! url = None →
  let '(p, s1) := preloadTexture url s in
  p = nextPromise s
  ∧ globalTextureCache s1 = globalTextureCache s
  ∧ texturePromises s1 !! url = Some p
  ∧ promiseHeap s1 !! p = Some Pending
  ∧ loadLog s1 = loadLog s ++ [url]
  ∧ outstanding s1 = outstanding s ++ [(url, p)].
Proof.
  intros Hc Hp. unfold preloadTexture. rewrite Hc, Hp. simpl.
  by rewrite !lookup_insert_eq.
Qed.

Lemma loads_of_app (url : string) (l : list string) (u : string) :
  length (filter (λ v, v = url) (l ++ [u]))
  = length (filter (λ v, v = url) l) + (if decide (u = url) then 1 else 0).
Proof.
  rewrite filter_app, length_app. f_equal.
  rewrite filter_cons, filter_nil. by case_decide.
Qed.

Lemma nodup_snd_inj (l : list (string * PromiseId)) u u' p :
  NoDup l.*2 → (u, p) ∈ l → (u', p) ∈ l → u = u'.
Proof.
  induction l as [|[v q] l IH]; simpl; intros Hnd H1 H2.
  - by apply elem_of_nil in H1.
  - apply NoDup_cons in Hnd as [Hq Hnd].
    apply elem_of_cons in H1 as [H1|H1]; apply elem_of_cons in H2 as [H2|H2].
    + congruence.
    + exfalso. apply Hq. inversion H1; subst.
      apply (list_elem_of_fmap_2 snd) in H2. done.
    + exfalso. apply Hq. inversion H2; subst.
      apply (list_elem_of_fmap_2 snd) in H1. done.
    + by apply IH.
Qed.

Lemma remove_request_elem r x l : x ∈ remove_request r l ↔ x ≠ r ∧ x ∈ l.
Proof. unfold remove_request. apply (list_elem_of_filter (λ y, y ≠ r)). Qed.

Lemma remove_request_nodup r (l : list (string * PromiseId)) :
  NoDup l.*2 → NoDup (remove_request r l).*2.
Proof.
  unfold remove_request. induction l as [|x l IH]; simpl; [done|].
  intros [Hx Hnd]%NoDup_cons. rewrite filter_cons.
  case_decide; [|by apply IH].
  simpl. apply NoDup_cons. split; [|by apply IH].
  intros Hin. apply Hx.
  apply list_elem_of_fmap in Hin as (y & -> & Hy).
  apply list_elem_of_filter in Hy as [_ Hy].
  by apply list_elem_of_fmap_2.
Qed.

Lemma settle_ne p q v h : p ≠ q → settle p v h !! q = h !! q.
Proof.
  intros Hne. unfold settle.
  destruct (h !! p) as [[]|]; try done. by rewrite lookup_insert_ne.
Qed.

Lemma settle_pending p v h : h !! p = Some Pending → settle p v h !! p = Some v.
Proof. intros H. unfold settle. rewrite H. by rewrite lookup_insert_eq. Qed.

Lemma wf_init : wf init.
Proof.
  split; simpl.
  - constructor.
  - intros u p H. by apply elem_of_nil in H.
  - intros u p H. by rewrite lookup_empty in H.
Qed.

Lemma wf_preloadTexture url s : wf s → wf (snd (preloadTexture url s)).
Proof.
  intros [Hnd Hpend Hprom]. unfold preloadTexture.
  destruct (globalTextureCache s !! url) as [tex|] eqn:Hc; simpl.
  - split; simpl; [done| |done].
    intros u p Hin. destruct (Hpend u p Hin) as [Hlt Hp].
    split; [lia|]. rewrite lookup_insert_ne; [done|lia].
  - destruct (texturePromises s !! url) as [q|] eqn:Hq; simpl; [done|].
    split; simpl.
    + rewrite fmap_app. simpl. apply NoDup_app. split; [done|]. split.
      * intros x Hx Hx'. apply list_elem_of_singleton in Hx'. subst x.
        apply list_elem_of_fmap in Hx as ([u p] & Heq & Hin). simpl in Heq.
        destruct (Hpend u p Hin) as [Hlt _]. lia.
      * apply NoDup_singleton.
    + intros u p Hin. apply elem_of_app in Hin as [Hin|Hin].
      * destruct (Hpend u p Hin) as [Hlt Hp].
        split; [lia|]. rewrite lookup_insert_ne; [done|lia].
      * apply list_elem_of_singleton in Hin. inversion Hin; subst.
        split; [lia|]. by rewrite lookup_insert_eq.
    + intros u p Hu. destruct (decide (u = url)) as [->|Hne].
      * rewrite lookup_insert_eq in Hu. inversion Hu; subst.
        split; [|done]. apply elem_of_app. right. by apply list_elem_of_singleton.
      * rewrite lookup_insert_ne in Hu by done.
        destruct (Hprom u p Hu) as [Hin Hn]. split; [|done].
        apply elem_of_app. by left.
Qed.

Lemma wf_callback url p v cache' s :
  wf s → (url, p) ∈ outstanding s →
  (∀ u, u ≠ url → cache' !! u = globalTextureCache s !! u) →
  wf (mkState cache' (delete url (texturePromises s))
        (settle p v (promiseHeap s)) (nextPromise s)
        (remove_request (url, p) (outstanding s)) (loadLog s) (disposeLog s)).
Proof.
  intros [Hnd Hpend Hprom] Hin Hcache. split; simpl.
  - by apply remove_request_nodup.
  - intros u q Hq. apply remove_request_elem in Hq as [Hne Hq].
    destruct (Hpend u q Hq) as [Hlt Hp]. split; [done|].
    rewrite settle_ne; [done|]. intros ->.
    apply Hne. f_equal. by apply (nodup_snd_inj (outstanding s) u url q).
  - intros u q Hu. destruct (decide (u = url)) as [->|Hne].
    + by rewrite lookup_delete_eq in Hu.
    + rewrite lookup_delete_ne in Hu by done.
      destruct (Hprom u q Hu) as [Hq Hn]. split.
      * apply remove_request_elem. split; [congruence|done].
      * by rewrite Hcache.
Qed.

Lemma wf_step e s : wf s → wf (step e s).
Proof.
  intros Hwf. destruct e as [url|url|url p tex|url p err|]; simpl.
  - by apply wf_preloadTexture.
  - unfold getCachedTexture. destruct (negb (truthy url)); [done|]. by destruct url.
  - case_bool_decide; [|done]. apply wf_callback; [done..|].
    intros u Hne. by rewrite lookup_insert_ne.
  - case_bool_decide; [|done]. by apply wf_callback.
  - destruct Hwf as [Hnd Hpend Hprom]. split; simpl; [done..|].
    intros u p H. by rewrite lookup_empty in H.
Qed.

Lemma wf_run es s : wf s → wf (run es s).
Proof.
  revert s. induction es as [|e es IH]; intros s Hwf; simpl; [done|].
  apply IH. by apply wf_step.
Qed.

Lemma reachable_wf s : reachable s → wf s.
Proof. intros [es ->]. apply wf_run, wf_init. Qed.

(** While nothing clears the cache and the load of [url] does not call
    back, its entry in [texturePromises] stays and no further load of
    [url] starts. *)
Lemma quiet_step url p e s :
  quiet url e = true →
  globalTextureCache s !! url = None →
  texturePromises s !! url = Some p →
  globalTextureCache (step e s) !! url = None
  ∧ texturePromises (step e s) !! url = Some p
  ∧ loads_of url (step e s) = loads_of url s.
Proof.
  intros Hq Hc Hp. destruct e as [u|u|u q tex|u q err|]; simpl in *.
  - destruct (decide (u = url)) as [->|Hne].
    + by rewrite (preloadTexture_in_flight url p s).
    + unfold preloadTexture.
      destruct (globalTextureCache s !! u); simpl; [done|].
      destruct (texturePromises s !! u); simpl; [done|].
      rewrite lookup_insert_ne by done. repeat split; try done.
      unfold loads_of. simpl. rewrite loads_of_app. case_decide; [done|lia].
  - unfold getCachedTexture. destruct (negb (truthy u)); [done|]. by destruct u.
  - apply negb_true_iff in Hq. destruct (String.eqb_spec u url) as [|Hne]; [done|].
    case_bool_decide; [|done]. simpl.
    by rewrite lookup_insert_ne, lookup_delete_ne.
  - apply negb_true_iff in Hq. destruct (String.eqb_spec u url) as [|Hne]; [done|].
    case_bool_decide; [|done]. simpl.
    by rewrite lookup_delete_ne.
  - done.
Qed.

Lemma quiet_run url p es s :
  forallb (quiet url) es = true →
  globalTextureCache s !! url = None →
  texturePromises s !! url = Some p →
  globalTextureCache (run es s) !! url = None
  ∧ texturePromises (run es s) !! url = Some p
  ∧ loads_of url (run es s) = loads_of url s.
Proof.
  revert s. induction es as [|e es IH]; intros s Hq Hc Hp; simpl in *; [done|].
  apply andb_true_iff in Hq as [He Hes].
  destruct (quiet_step url p e s He Hc Hp) as (Hc' & Hp' & Hl').
  destruct (IH (step e s) Hes Hc' Hp') as (? & ? & ?).
  repeat split; try done. congruence.
Qed.

(** Once the request [(url, p)] has called back it never comes back:
    promises are allocated upwards. *)
Lemma gone_step url p e s :
  (url, p) ∉ outstanding s → p < nextPromise s →
  ((url, p) ∉ outstanding (step e s)) ∧ p < nextPromise (step e s).
Proof.
  intros Hout Hlt. destruct e as [u|u|u q tex|u q err|]; simpl.
  - unfold preloadTexture.
    destruct (globalTextureCache s !! u); simpl; [split; [done|lia]|].
    destruct (texturePromises s !! u); simpl; [done|].
    split; [|lia]. intros Hin. apply elem_of_app in Hin as [Hin|Hin]; [done|].
    apply list_elem_of_singleton in Hin. inversion Hin. lia.
  - unfold getCachedTexture. destruct (negb (truthy u)); [done|]. by destruct u.
  - case_bool_decide; [|done]. simpl. split; [|done].
    intros [_ Hin]%remove_request_elem. done.
  - case_bool_decide; [|done]. simpl. split; [|done].
    intros [_ Hin]%remove_request_elem. done.
  - done.
Qed.

Lemma gone_run url p es s :
  (url, p) ∉ outstanding s → p < nextPromise s →
  (url, p) ∉ outstanding (run es s).
Proof.
  revert s. induction es as [|e es IH]; intros s Hout Hlt; simpl; [done|].
  destruct (gone_step url p e s Hout Hlt) as [Hout' Hlt']. by apply IH.
Qed.

(** While nothing clears the cache and no callback of another request
    for [url] runs, either the entry of [url] in [texturePromises] stays
    and no further load of [url] starts, or the request of the entry has
    called back. *)
Lemma calm_step url p e s :
  wf s → calm url p e = true →
  globalTextureCache s !! url = None →
  texturePromises s !! url = Some p →
  (globalTextureCache (step e s) !! url = None
   ∧ texturePromises (step e s) !! url = Some p
   ∧ loads_of url (step e s) = loads_of url s)
  ∨ (((url, p) ∉ outstanding (step e s)) ∧ p < nextPromise (step e s)).
Proof.
  intros Hwf Hcalm Hc Hp.
  destruct (quiet url e) eqn:Hq; [left; by apply quiet_step|].
  right. destruct (wf_promises _ Hwf url p Hp) as [Hout _].
  destruct (wf_pending _ Hwf url p Hout) as [Hlt _].
  destruct e as [u|u|u q tex|u q err|]; simpl in *; try done.
  - apply negb_false_iff in Hq. apply String.eqb_eq in Hq as ->.
    rewrite String.eqb_refl in Hcalm. simpl in Hcalm.
    apply bool_decide_eq_true in Hcalm as ->.
    rewrite bool_decide_eq_true_2 by done. simpl. split; [|done].
    intros [Hne _]%remove_request_elem. done.
  - apply negb_false_iff in Hq. apply String.eqb_eq in Hq as ->.
    rewrite String.eqb_refl in Hcalm. simpl in Hcalm.
    apply bool_decide_eq_true in Hcalm as ->.
    rewrite bool_decide_eq_true_2 by done. simpl. split; [|done].
    intros [Hne _]%remove_request_elem. done.
Qed.

Lemma calm_run url p es s :
  wf s → forallb (calm url p) es = true →
  globalTextureCache s !! url = None →
  texturePromises s !! url = Some p →
  (globalTextureCache (run es s) !! url = None
   ∧ texturePromises (run es s) !! url = Some p
   ∧ loads_of url (run es s) = loads_of url s)
  ∨ (url, p) ∉ outstanding (run es s).
Proof.
  revert s. induction es as [|e es IH]; intros s Hwf Hq Hc Hp; simpl in *.
  - by left.
  - apply andb_true_iff in Hq as [He Hes].
    destruct (calm_step url p e s Hwf He Hc Hp) as [[Hc' [Hp' Hl']]|[Hout Hlt]].
    + destruct (IH (step e s) (wf_step e s Hwf) Hes Hc' Hp') as [[? [? ?]]|?].
      * left. repeat split; try done. congruence.
      * by right.
    + right. by apply gone_run.
Qed.

(** C2, amended. Single flight.  In a state the cache can reach, when
    [preloadTexture url] starts a load and is called again while that
    load has not called back (whatever else is acquired, looked up,
    loaded or failed in between, short of [clearTextureCache()] and of a
    callback of an earlier request for the same url), both calls return
    the same promise, that promise is still pending, the second call
    changes nothing, and [url] has been handed to the loader exactly once
    more.  Whenever [url] has an entry in [texturePromises], the call
    returns that pending promise and starts nothing.  When [url] is in
    the resolved cache, the call returns a promise already fulfilled with
    the cached texture and starts no load. *)
Theorem preloadTexture_single_flight (url : string) (s : State) :
  reachable s →
  (globalTextureCache s !! url = None →
   texturePromises s !! url = None →
   ∀ es,
     let '(p1, s1) := preloadTexture url s in
     let s2 := run es s1 in
     forallb (calm url p1) es = true →
     (url, p1) ∈ outstanding s2 →
     let '(p2, s3) := preloadTexture url s2 in
     p1 = p2 ∧ s3 = s2
     ∧ promiseHeap s3 !! p1 = Some Pending
     ∧ loads_of url s1 = S (loads_of url s)
     ∧ loads_of url s3 = S (loads_of url s))
  ∧ (∀ p, texturePromises s !! url = Some p →
          preloadTexture url s = (p, s)
          ∧ promiseHeap s !! p = Some Pending
          ∧ (url, p) ∈ outstanding s)
  ∧ (∀ tex, globalTextureCache s !! url = Some tex →
       let '(p, s1) := preloadTexture url s in
       promiseHeap s1 !! p = Some (Fulfilled tex)
       ∧ loadLog s1 = loadLog s
       ∧ outstanding s1 = outstanding s
       ∧ texturePromises s1 = texturePromises s
       ∧ globalTextureCache s1 = globalTextureCache s).
Proof.
  intros Hreach. apply reachable_wf in Hreach as Hwf.
  split; [|split].
  - intros Hc Hp es.
    pose proof (preloadTexture_fresh url s Hc Hp) as Hfresh.
    pose proof (wf_preloadTexture url s Hwf) as Hwf1.
    destruct (preloadTexture url s) as [p1 s1] eqn:E1. simpl in Hwf1.
    destruct Hfresh as (Hp1 & Hc1 & Hin & Hpend & Hlog & _).
    assert (Hl1 : loads_of url s1 = S (loads_of url s)).
    { unfold loads_of. rewrite Hlog, loads_of_app. case_decide; [lia|done]. }
    cbv zeta. intros Hq Hstill.
    destruct (calm_run url p1 es s1 Hwf1 Hq) as [[Hc2 [Hp2 Hl2]]|Hgone];
      [by rewrite Hc1 | done | | done].
    rewrite (preloadTexture_in_flight url p1 (run es s1) Hc2 Hp2).
    pose proof (wf_run es s1 Hwf1) as Hwf2.
    destruct (wf_pending _ Hwf2 url p1 Hstill) as [_ Hpe].
    repeat split; try done. congruence.
  - intros p Hp.
    destruct (wf_promises _ Hwf url p Hp) as [Hout Hc].
    destruct (wf_pending _ Hwf url p Hout) as [_ Hpe].
    by rewrite (preloadTexture_in_flight url p s).
  - intros tex Hc. unfold preloadTexture. rewrite Hc. simpl.
    by rewrite lookup_insert_eq.
Qed.

Lemma preloadTexture_single_flight_witness :
  let es := [Acquire "img2.png"; Lookup (Some "img1.png");
             Failed "img2.png" 1 (ErrorEvent "no route")] in
  let '(p1, s1) := preloadTexture "img1.png" init in
  let s2 := run es s1 in
  let '(p2, s3) := preloadTexture "img1.png" s2 in
  p1 = p2 ∧ s3 = s2
  ∧ promiseHeap s3 !! p1 = Some Pending
  ∧ loads_of "img1.png" s1 = S (loads_of "img1.png" init)
  ∧ loads_of "img1.png" s3 = S (loads_of "img1.png" init).
Proof.
  assert (Hr : reachable init) by (by exists []).
  destruct (preloadTexture_single_flight "img1.png" init Hr) as [H _].
  pose proof (H eq_refl eq_refl
                [Acquire "img2.png"; Lookup (Some "img1.png");
                 Failed "img2.png" 1 (ErrorEvent "no route")]) as H'.
  cbv zeta in H' |- *.
  destruct (preloadTexture "img1.png" init) as [p1 s1] eqn:E.
  vm_compute in E. injection E as <- <-.
  apply H'; [reflexivity | apply list_elem_of_here].
Defined.

(** C2, counterexample. [clearTextureCache()] empties [texturePromises]
    without cancelling anything: the first load of the url is still in
    flight and its promise still pending, yet the second call returns a
    different promise and hands the url to the loader a second time. *)
Lemma single_flight_counterexample :
  let '(p1, s1) := preloadTexture "img1.png" init in
  let s2 := run [Clear] s1 in
  let '(p2, s3) := preloadTexture "img1.png" s2 in
  ("img1.png", p1) ∈ outstanding s2
  ∧ promiseHeap s2 !! p1 = Some Pending
  ∧ p1 ≠ p2
  ∧ promiseHeap s3 !! p2 = Some Pending
  ∧ loads_of "img1.png" s3 = 2.
Proof.
  simpl. split; [apply list_elem_of_here|]. repeat split; done.
Qed.

(** After a clear, the callback of the forgotten request deletes the
    entry of the request that replaced it, by url: the next call starts a
    third load while the second is still in flight. *)
Example stale_callback_breaks_single_flight :
  let s := run [Acquire "img1.png"; Clear; Acquire "img1.png";
                Failed "img1.png" 0 (ErrorEvent "timeout")] init in
  let '(p3, s3) := preloadTexture "img1.png" s in
  outstanding s = [("img1.png", 1)]
  ∧ promiseHeap s !! 1 = Some Pending
  ∧ texturePromises s !! "img1.png" = None
  ∧ p3 = 2
  ∧ loadLog s3 = ["img1.png"; "img1.png"; "img1.png"].
Proof. repeat split; reflexivity. Qed.

(** A texture that has resolved is returned by the synchronous lookup. *)
Example lookup_after_load (tex : Texture) :
  let s := run [Acquire "img1.png"; Loaded "img1.png" 0 tex] init in
  fst (getCachedTexture (Some "img1.png") s) = Some (configure tex)
  ∧ texturePromises s !! "img1.png" = None
  ∧ promiseHeap s !! 0 = Some (Fulfilled (configure tex)).
Proof. cbv zeta. split; [|split]; reflexivity. Qed.

(** [clearTextureCache] forgets the requests in flight: an acquire after
    it hands the url to the loader again and returns another promise. *)
Example acquire_after_clear_reloads :
  let '(p1, s1) := preloadTexture "img1.png" init in
  let '(p2, s2) := preloadTexture "img1.png" (clearTextureCache s1) in
  p1 = 0 ∧ p2 = 1 ∧ loadLog s2 = ["img1.png"; "img1.png"]
  ∧ outstanding s2 = [("img1.png", 0); ("img1.png", 1)].
Proof. repeat split; reflexivity. Qed.

(** C7. A failed load does not poison the cache.  When the error callback
    of a request for [url] runs, the entry of [url] in [texturePromises]
    is removed, the promise of the request is rejected with the error, and
    the resolved cache is unchanged; if [url] is not in the resolved
    cache, the next [preloadTexture url] hands [url] to the loader again
    and returns a new pending promise. *)
Theorem onError_no_poison (url : string) (p : PromiseId) (err : LoadError) (s : State) :
  reachable s →
  (url, p) ∈ outstanding s →
  let s' := onError url p err s in
  step (Failed url p err) s = s'
  ∧ globalTextureCache s' = globalTextureCache s
  ∧ texturePromises s' !! url = None
  ∧ promiseHeap s' !! p = Some (Rejected err)
  ∧ (globalTextureCache s !! url = None →
     let '(q, s'') := preloadTexture url s' in
     q ≠ p
     ∧ promiseHeap s'' !! q = Some Pending
     ∧ texturePromises s'' !! url = Some q
     ∧ loadLog s'' = loadLog s ++ [url]
     ∧ loads_of url s'' = S (loads_of url s)).
Proof.
  intros Hreach Hin. apply reachable_wf in Hreach as Hwf.
  destruct (wf_pending _ Hwf url p Hin) as [Hlt Hpe].
  cbv zeta. split; [|split; [|split; [|split]]].
  - simpl. by rewrite bool_decide_eq_true_2.
  - done.
  - simpl. apply lookup_delete_eq.
  - simpl. by apply settle_pending.
  - intros Hc.
    pose proof (preloadTexture_fresh url (onError url p err s)) as Hfresh.
    destruct (preloadTexture url (onError url p err s)) as [q s''].
    destruct Hfresh as (Hq & _ & Hq' & Hpend & Hlog & _).
    { done. } { simpl. apply lookup_delete_eq. }
    simpl in Hq, Hlog. repeat split; try done.
    + lia.
    + unfold loads_of. rewrite Hlog, loads_of_app. case_decide; [lia|done].
Qed.

Lemma onError_no_poison_witness :
  let s := snd (preloadTexture "img1.png" init) in
  let s' := onError "img1.png" 0 (ErrorEvent "404") s in
  step (Failed "img1.png" 0 (ErrorEvent "404")) s = s'
  ∧ globalTextureCache s' = globalTextureCache s
  ∧ texturePromises s' !! "img1.png" = None
  ∧ promiseHeap s' !! 0 = Some (Rejected (ErrorEvent "404"))
  ∧ (globalTextureCache s !! "img1.png" = None →
     let '(q, s'') := preloadTexture "img1.png" s' in
     q ≠ 0
     ∧ promiseHeap s'' !! q = Some Pending
     ∧ texturePromises s'' !! "img1.png" = Some q
     ∧ loadLog s'' = loadLog s ++ ["img1.png"]
     ∧ loads_of "img1.png" s'' = S (loads_of "img1.png" s)).
Proof.
  apply (onError_no_poison "img1.png" 0 (ErrorEvent "404")
           (snd (preloadTexture "img1.png" init))).
  - by exists [Acquire "img1.png"].
  - vm_compute. apply list_elem_of_here.
Defined.

(** C8. [clearTextureCache] disposes every texture of the resolved cache
    once, empties the resolved cache and [texturePromises], and a second
    call right after changes nothing: it disposes nothing again. *)
Theorem clearTextureCache_idempotent (s : State) :
  let s1 := clearTextureCache s in
  globalTextureCache s1 = ∅
  ∧ texturePromises s1 = ∅
  ∧ disposeLog s1 = disposeLog s ++ (map_to_list (globalTextureCache s)).*2
  ∧ (∀ u tex, globalTextureCache s !! u = Some tex →
       tex ∈ (map_to_list (globalTextureCache s)).*2)
  ∧ length (disposeLog s1) = length (disposeLog s) + size (globalTextureCache s)
  ∧ clearTextureCache s1 = s1
  ∧ disposeLog (clearTextureCache s1) = disposeLog s1.
Proof.
  cbv zeta. unfold clearTextureCache. simpl.
  rewrite map_to_list_empty. simpl. rewrite app_nil_r.
  repeat split; try done.
  - intros u tex H. apply list_elem_of_fmap. exists (u, tex).
    split; [done|]. by apply elem_of_map_to_list.
  - by rewrite length_app, length_fmap, length_map_to_list.
Qed.

Lemma clearTextureCache_idempotent_witness :
  let s := onLoad "img1.png" 0 (mkTexture 3 ClampToEdgeWrapping ClampToEdgeWrapping
                                  (1, 1) true NoColorSpace LinearEncoding false)
             (snd (preloadTexture "img1.png" init)) in
  configure (mkTexture 3 ClampToEdgeWrapping ClampToEdgeWrapping
               (1, 1) true NoColorSpace LinearEncoding false)
    ∈ (map_to_list (globalTextureCache s)).*2.
Proof.
  cbv zeta.
  destruct (clearTextureCache_idempotent
              (onLoad "img1.png" 0 (mkTexture 3 ClampToEdgeWrapping ClampToEdgeWrapping
                                      (1, 1) true NoColorSpace LinearEncoding false)
                 (snd (preloadTexture "img1.png" init))))
    as (_ & _ & _ & H & _).
  apply (H "img1.png"). reflexivity.
Defined.

(** C10. [getCachedTexture] is total on its nullable argument: for [null]
    or [undefined] it returns [null] whatever the cache holds, for a url
    that is not in the resolved cache it returns [null], and in no case
    does it change the state, so no load is started. *)
Theorem getCachedTexture_total (s : State) :
  getCachedTexture None s = (None, s)
  ∧ (∀ u, globalTextureCache s !! u = None →
          getCachedTexture (Some u) s = (None, s))
  ∧ (∀ url, snd (getCachedTexture url s) = s
            ∧ loadLog (snd (getCachedTexture url s)) = loadLog s
            ∧ outstanding (snd (getCachedTexture url s)) = outstanding s).
Proof.
  split; [done|]. split.
  - intros u Hu. unfold getCachedTexture.
    destruct (negb (truthy (Some u))); [done|]. by rewrite Hu.
  - intros url. unfold getCachedTexture.
    destruct (negb (truthy url)); [done|]. by destruct url.
Qed.

Lemma getCachedTexture_total_witness :
  getCachedTexture (Some "img1.png") init = (None, init).
Proof.
  destruct (getCachedTexture_total init) as (_ & H & _).
  apply (H "img1.png"). reflexivity.
Defined.

End CacheFacts.

(** ** Procedural textures *)

Module ProceduralFacts.

Import Types Procedural.

Section NoiseFacts.
Local Open Scope R_scope.

Lemma sum_below_ext n (f g : nat → R) :
  (∀ k, f k = g k) → sum_below n f = sum_below n g.
Proof. intros H. induction n as [|n IH]; simpl; [done|]. by rewrite IH, H. Qed.

Lemma sum_below_shift n (f : nat → R) :
  sum_below (S n) f = f O + sum_below n (λ k, f (S k)).
Proof.
  induction n as [|n IH]; simpl; [lra|].
  simpl in IH. rewrite IH. lra.
Qed.

(** What [n] iterations add to the accumulators. *)
Lemma noise_loop_sum n x y value amplitude frequency maxValue :
  noise_loop n x y value amplitude frequency maxValue
  = (value + sum_below n (λ k, sin (x * (frequency * 2 ^ k))
                                * cos (y * (frequency * 2 ^ k))
                                * (amplitude * 0.5 ^ k)),
     maxValue + sum_below n (λ k, amplitude * 0.5 ^ k)).
Proof.
  revert value amplitude frequency maxValue.
  induction n as [|n IH]; intros v a f m.
  - simpl. f_equal; lra.
  - change (noise_loop (S n) x y v a f m)
      with (noise_loop n x y (v + sin (x * f) * cos (y * f) * a)
              (a * 0.5) (f * 2) (m + a)).
    rewrite IH, !sum_below_shift. f_equal.
    + rewrite (sum_below_ext n _
        (λ k, sin (x * (f * 2 ^ S k)) * cos (y * (f * 2 ^ S k)) * (a * 0.5 ^ S k))).
      * simpl. rewrite !Rmult_1_r. lra.
      * intros k. simpl.
        replace (f * 2 * 2 ^ k) with (f * (2 * 2 ^ k)) by ring.
        ring.
    + rewrite (sum_below_ext n _ (λ k, a * 0.5 ^ S k)).
      * simpl. lra.
      * intros k. simpl. ring.
Qed.

Lemma sum_below_a_pos n : (1 ≤ n)%nat → 0 < sum_below n a_.
Proof.
  assert (Hpos : ∀ k, 0 < a_ k) by (intros k; unfold a_; apply pow_lt; lra).
  assert (Hge : ∀ m, 0 <= sum_below m a_).
  { induction m as [|m IH]; simpl; [lra|]. specialize (Hpos m). lra. }
  destruct n as [|n]; [lia|]. intros _. simpl.
  specialize (Hge n). specialize (Hpos n). lra.
Qed.

(** C4. For at least one octave, [fractalNoise] is the weighted sum of
    the octaves divided by the sum of the weights (which is positive),
    times the intensity, with weights [0.5^k] and frequencies
    [scale * 2^k]. *)
Theorem fractalNoise_formula (x y : R) (n : nat) (scale intensity : R) :
  (1 ≤ n)%nat →
  fractalNoise x y n scale intensity
  = sum_below n (λ k, sin (x * (scale * 2 ^ k)) * cos (y * (scale * 2 ^ k)) * 0.5 ^ k)
    / sum_below n (λ k, 0.5 ^ k) * intensity
  ∧ fractalNoise x y n scale intensity = fractal_formula x y n scale intensity
  ∧ 0 < sum_below n (λ k, 0.5 ^ k).
Proof.
  intros Hn.
  assert (E : fractalNoise x y n scale intensity
              = fractal_formula x y n scale intensity).
  { unfold fractalNoise, fractal_formula. rewrite noise_loop_sum.
    rewrite !Rplus_0_l. f_equal. f_equal.
    - apply sum_below_ext. intros k. unfold f_, a_. ring.
    - apply sum_below_ext. intros k. unfold a_. ring. }
  split; [|split].
  - rewrite E. reflexivity.
  - exact E.
  - by apply (sum_below_a_pos n).
Qed.

End NoiseFacts.

(** Every value written to the byte array lies between 0 and 255. *)
Lemma clamp_channel_range v : (0 <= clamp_channel v <= 255)%R.
Proof. unfold clamp_channel, Rmax, Rmin. repeat destruct (Rle_dec _ _); lra. Qed.

Lemma texel_range (k : PaperType) (i j : nat) :
  let '(r, g, b, a) := texel k i j in
  (0 <= r <= 255 ∧ 0 <= g <= 255 ∧ 0 <= b <= 255 ∧ 0 <= a <= 255)%R.
Proof.
  unfold texel. destruct (cell_rgba _ _ _) as [[[r g] b] a].
  repeat split; apply clamp_channel_range.
Qed.

Lemma fractalNoise_formula_witness :
  (fractalNoise 1 2 3 6 0.2
   = fractal_formula 1 2 3 6 0.2)%R.
Proof.
  apply (fractalNoise_formula 1 2 3 6 0.2). lia.
Defined.

Lemma runs_of_app (k j : PaperType) (l : list PaperType) :
  length (filter (λ i, i = k) (l ++ [j]))
  = length (filter (λ i, i = k) l) + (if decide (j = k) then 1 else 0).
Proof.
  rewrite filter_app, length_app. f_equal.
  rewrite filter_cons, filter_nil. by case_decide.
Qed.

Lemma memo_inv_init : memo_inv init.
Proof.
  split; simpl.
  - intros k t H. by rewrite lookup_empty in H.
  - intros k. by rewrite lookup_empty.
  - intros k1 k2 t1 t2 H. by rewrite lookup_empty in H.
Qed.

Lemma getProceduralTexture_hit (paperType : option PaperType) (t : DataTexture) (s : State) :
  proceduralTextureCache s !! effective paperType = Some t →
  getProceduralTexture paperType s = (Some t, s).
Proof. intros H. unfold getProceduralTexture. rewrite H. cbv zeta. by rewrite H. Qed.

Lemma getProceduralTexture_miss (paperType : option PaperType) (s : State) :
  proceduralTextureCache s !! effective paperType = None →
  ∃ t, getProceduralTexture paperType s
       = (Some t, mkState (<[effective paperType := t]> (proceduralTextureCache s))
                    (S (nextObject s)) (generated s ++ [effective paperType]))
       ∧ dt_id t = nextObject s ∧ dt_kind t = effective paperType.
Proof.
  intros H. unfold getProceduralTexture. rewrite H. simpl.
  rewrite lookup_insert_eq. eauto.
Qed.

Lemma memo_inv_step (paperType : option PaperType) (s : State) :
  memo_inv s → memo_inv (snd (getProceduralTexture paperType s)).
Proof.
  intros [Hk Hr Hi].
  destruct (proceduralTextureCache s !! effective paperType) as [t|] eqn:E.
  - by rewrite (getProceduralTexture_hit paperType t s E).
  - destruct (getProceduralTexture_miss paperType s E) as (t & -> & Hid & Hkind).
    simpl. split; simpl.
    + intros k t' H. destruct (decide (effective paperType = k)) as [<-|Hne].
      * rewrite lookup_insert_eq in H. inversion H; subst. split; [done|lia].
      * rewrite lookup_insert_ne in H by done.
        destruct (Hk k t' H). split; [done|lia].
    + intros k. unfold runs_of. simpl. rewrite runs_of_app.
      specialize (Hr k). unfold runs_of in Hr. rewrite Hr.
      destruct (decide (effective paperType = k)) as [<-|Hne].
      * by rewrite lookup_insert_eq, E.
      * rewrite lookup_insert_ne by done.
        destruct (proceduralTextureCache s !! k); lia.
    + intros k1 k2 t1 t2 H1 H2 Heq.
      destruct (decide (effective paperType = k1)) as [<-|Hne1];
        destruct (decide (effective paperType = k2)) as [<-|Hne2]; [done|..].
      * rewrite lookup_insert_eq in H1. rewrite lookup_insert_ne in H2 by done.
        inversion H1; subst. destruct (Hk k2 t2 H2). lia.
      * rewrite lookup_insert_eq in H2. rewrite lookup_insert_ne in H1 by done.
        inversion H2; subst. destruct (Hk k1 t1 H1). lia.
      * rewrite lookup_insert_ne in H1, H2 by done. by apply (Hi k1 k2 t1 t2).
Qed.

Lemma memo_inv_run calls s : memo_inv s → memo_inv (run calls s).
Proof.
  revert s. induction calls as [|k calls IH]; intros s H; simpl; [done|].
  apply IH. by apply memo_inv_step.
Qed.

Lemma getProceduralTexture_some (paperType : option PaperType) (s : State) :
  ∃ t, fst (getProceduralTexture paperType s) = Some t
       ∧ proceduralTextureCache (snd (getProceduralTexture paperType s))
           !! effective paperType = Some t.
Proof.
  destruct (proceduralTextureCache s !! effective paperType) as [t|] eqn:E.
  - rewrite (getProceduralTexture_hit paperType t s E). eauto.
  - destruct (getProceduralTexture_miss paperType s E) as (t & -> & _).
    simpl. rewrite lookup_insert_eq. eauto.
Qed.

(** C5. Memoisation by identity.  At any point of a process, two calls of
    [getProceduralTexture] with the same kind return the same buffer
    object (the same identity, not only the same contents), the second
    call changes nothing, and [generatePaperTexture] has run at most once
    for each kind, and exactly once for the kind just asked for. *)
Theorem getProceduralTexture_memoized (calls : list (option PaperType))
    (paperType : option PaperType) :
  let s := run calls init in
  let '(t1, s1) := getProceduralTexture paperType s in
  let '(t2, s2) := getProceduralTexture paperType s1 in
  t1 = t2
  ∧ (∃ t, t1 = Some t ∧ dt_kind t = effective paperType)
  ∧ (dt_id <$> t1) = (dt_id <$> t2)
  ∧ s2 = s1
  ∧ runs_of (effective paperType) s2 = 1
  ∧ (∀ k, runs_of k s2 ≤ 1)
  ∧ (∀ k t, proceduralTextureCache s2 !! k = Some t →
       dt_id <$> t1 = Some (dt_id t) → k = effective paperType).
Proof.
  cbv zeta.
  pose proof (memo_inv_run calls init memo_inv_init) as Hinv.
  pose proof (memo_inv_step paperType _ Hinv) as Hinv1.
  destruct (getProceduralTexture_some paperType (run calls init)) as (t & Ht & Hc).
  destruct (getProceduralTexture paperType (run calls init)) as [t1 s1].
  simpl in Ht, Hc, Hinv1. subst t1.
  rewrite (getProceduralTexture_hit paperType t s1 Hc).
  destruct Hinv1 as [Hk Hr Hi].
  repeat split; try done.
  - exists t. split; [done|]. by destruct (Hk _ _ Hc).
  - rewrite Hr, Hc. done.
  - intros k. rewrite Hr. destruct (proceduralTextureCache s1 !! k); lia.
  - intros k t' Hk' Hid. simpl in Hid. inversion Hid.
    by apply (Hi k (effective paperType) t' t).
Qed.

Lemma getProceduralTexture_memoized_witness :
  fst (getProceduralTexture None (run [Some rice] init))
  = fst (getProceduralTexture None
           (snd (getProceduralTexture None (run [Some rice] init)))).
Proof.
  pose proof (getProceduralTexture_memoized [Some rice] None) as H.
  cbv zeta in H.
  destruct (getProceduralTexture None (run [Some rice] init)) as [t1 s1].
  cbn [fst snd].
  destruct (getProceduralTexture None s1) as [t2 s2].
  cbn [fst]. exact (proj1 H).
Defined.

(** C9. [getProceduralTexture(null)] is [getProceduralTexture("hemp")]:
    the unset kind is coerced to hemp, the call returns a buffer (never
    [null]), and it is the very buffer object that a call with ["hemp"]
    returns, before or after. *)
Theorem getProceduralTexture_null_is_hemp (calls : list (option PaperType)) :
  let s := run calls init in
  getProceduralTexture None s = getProceduralTexture (Some hemp) s
  ∧ generatePaperTexture None s = generatePaperTexture (Some hemp) s
  ∧ (let '(t1, s1) := getProceduralTexture None s in
     let '(t2, s2) := getProceduralTexture (Some hemp) s1 in
     t1 = t2 ∧ s2 = s1 ∧ ∃ t, t1 = Some t ∧ dt_kind t = hemp)
  ∧ (let '(t1, s1) := getProceduralTexture (Some hemp) s in
     let '(t2, s2) := getProceduralTexture None s1 in
     t1 = t2 ∧ s2 = s1 ∧ ∃ t, t2 = Some t ∧ dt_kind t = hemp).
Proof.
  cbv zeta. split; [done|]. split; [done|].
  pose proof (memo_inv_run calls init memo_inv_init) as Hinv.
  pose proof (memo_inv_step None _ Hinv) as Hinv1.
  destruct (getProceduralTexture_some None (run calls init)) as (t & Ht & Hc).
  change (getProceduralTexture (Some hemp) (run calls init))
    with (getProceduralTexture None (run calls init)).
  destruct (getProceduralTexture None (run calls init)) as [t1 s1].
  simpl in Ht, Hc, Hinv1. subst t1.
  change (getProceduralTexture (Some hemp) s1) with (getProceduralTexture None s1).
  rewrite (getProceduralTexture_hit None t s1 Hc).
  destruct (memo_kind _ Hinv1 _ _ Hc) as [Hkind _].
  split; (split; [done|]; split; [done|]; by exists t).
Qed.

End ProceduralFacts.

(** ** Transitions *)

Module TransitionFacts.

Import Transition.
Local Open Scope R_scope.

Ltac case_R :=
  unfold geb, ltb, Rmin, Rmax in *;
  repeat match goal with
         | |- context [Rle_dec ?a ?b] => destruct (Rle_dec a b)
         | |- context [Rlt_dec ?a ?b] => destruct (Rlt_dec a b)
         | H : context [Rle_dec ?a ?b] |- _ => destruct (Rle_dec a b)
         | H : context [Rlt_dec ?a ?b] |- _ => destruct (Rlt_dec a b)
         end.

Lemma geb_true a b : geb a b = true ↔ b <= a.
Proof. unfold geb. destruct (Rle_dec b a); split; (done || lra). Qed.

Lemma ltb_true a b : ltb a b = true ↔ a < b.
Proof. unfold ltb. destruct (Rlt_dec a b); split; (done || lra). Qed.

Lemma Rmin_1_eq x : Rmin 1 x = 1 ↔ 1 <= x.
Proof. unfold Rmin. destruct (Rle_dec 1 x); split; lra. Qed.

Lemma Rmin_1_lt x : Rmin 1 x < 1 ↔ x < 1.
Proof. unfold Rmin. destruct (Rle_dec 1 x); split; lra. Qed.

Lemma session_inv_start rate : session_inv rate 0 0 false 0.
Proof.
  split; [|split|done].
  - rewrite Rmult_0_r. unfold Rmin. destruct (Rle_dec 1 0); lra.
  - done.
  - rewrite Rmult_0_r. lra.
Qed.

(** One frame of [AnimatedPaper] keeps the invariant. *)
Lemma paper_useFrame_inv rate T d s :
  0 <= rate → 0 <= d →
  session_inv rate T (rollProgress s) (transitionCompleteRef s) (completions s) →
  let s' := paper_useFrame rate true d s in
  session_inv rate (T + d) (rollProgress s') (transitionCompleteRef s') (completions s').
Proof.
  intros Hr Hd [Hp Hf Hc]. cbv zeta.
  assert (Hdr : 0 <= d * rate) by (by apply Rmult_le_pos).
  assert (HT : rate * (T + d) = rate * T + d * rate) by ring.
  unfold paper_useFrame. rewrite Hp. clear Hp.
  destruct (transitionCompleteRef s) eqn:Hflag; simpl negb.
  - assert (1 <= rate * T) by (by apply Hf).
    rewrite andb_false_r. split; simpl; rewrite ?HT.
    + case_R; lra.
    + split; [lra|done].
    + done.
  - assert (¬ 1 <= rate * T) by (intros Hx; by apply Hf in Hx).
    rewrite andb_true_r.
    destruct (geb (Rmin 1 (rate * T) + d * rate) 1) eqn:Hg.
    + apply geb_true in Hg. split; simpl; rewrite ?HT.
      * case_R; lra.
      * split; [|done]. intros _. case_R; lra.
      * by rewrite Hc.
    + assert (¬ 1 <= Rmin 1 (rate * T) + d * rate).
      { intros Hx. apply geb_true in Hx. congruence. }
      split; simpl; rewrite ?HT.
      * case_R; lra.
      * split; [done|]. intros Hx. case_R; lra.
      * done.
Qed.

(** One frame of [MergingScene] keeps the invariant. *)
Lemma merge_useFrame_inv rate T d s :
  0 <= rate → 0 <= d →
  session_inv rate T (animProgress s) (animationCompleteRef s) (scheduled s) →
  let s' := merge_useFrame rate true d s in
  session_inv rate (T + d) (animProgress s') (animationCompleteRef s') (scheduled s').
Proof.
  intros Hr Hd [Hp Hf Hc]. cbv zeta.
  assert (Hdr : 0 <= d * rate) by (by apply Rmult_le_pos).
  assert (HT : rate * (T + d) = rate * T + d * rate) by ring.
  unfold merge_useFrame. simpl.
  destruct (ltb (animProgress s) 1) eqn:Hlt.
  - apply ltb_true in Hlt. rewrite Hp in Hlt. apply (proj1 (Rmin_1_lt _)) in Hlt.
    assert (Hflag : animationCompleteRef s = false).
    { destruct (animationCompleteRef s); [|done].
      assert (1 <= rate * T) by (by apply Hf). lra. }
    rewrite Hflag in *. rewrite andb_true_r. rewrite Hp.
    assert (Hmin : Rmin 1 (rate * T) = rate * T) by (case_R; lra).
    rewrite Hmin, <- HT.
    destruct (geb (Rmin 1 (rate * (T + d))) 1) eqn:Hg; simpl.
    + apply geb_true in Hg. split; simpl; [done| |by rewrite Hc].
      split; [|done]. intros _. case_R; lra.
    + assert (¬ 1 <= Rmin 1 (rate * (T + d))).
      { intros Hx. apply geb_true in Hx. congruence. }
      split; simpl; [done| |done].
      split; [done|]. intros Hx. case_R; lra.
  - assert (Hge : ¬ animProgress s < 1).
    { intros Hx. apply ltb_true in Hx. congruence. }
    rewrite Hp in Hge.
    assert (1 <= rate * T) by (case_R; lra).
    split; [| |done].
    + rewrite Hp, HT. case_R; lra.
    + rewrite HT. split; [lra|]. intros _. by apply Hf.
Qed.

Lemma session_inv_ext rate T T' p f c :
  T = T' → session_inv rate T p f c → session_inv rate T' p f c.
Proof. by intros ->. Qed.

Lemma paper_fold_inv rate ds :
  0 <= rate → Forall (λ d, 0 <= d) ds →
  ∀ s T,
    session_inv rate T (rollProgress s) (transitionCompleteRef s) (completions s) →
    let s' := fold_left (λ s d, paper_useFrame rate true d s) ds s in
    session_inv rate (T + elapsed ds)
      (rollProgress s') (transitionCompleteRef s') (completions s').
Proof.
  intros Hr Hds. induction Hds as [|d ds Hd Hds IH]; intros s T Hinv; simpl.
  - apply (session_inv_ext rate T); [unfold elapsed; simpl; lra | done].
  - apply (session_inv_ext rate (T + d + elapsed ds));
      [unfold elapsed; simpl; lra|].
    apply IH. by apply paper_useFrame_inv.
Qed.

Lemma merge_fold_inv rate ds :
  0 <= rate → Forall (λ d, 0 <= d) ds →
  ∀ s T,
    session_inv rate T (animProgress s) (animationCompleteRef s) (scheduled s) →
    let s' := fold_left (λ s d, merge_useFrame rate true d s) ds s in
    session_inv rate (T + elapsed ds)
      (animProgress s') (animationCompleteRef s') (scheduled s').
Proof.
  intros Hr Hds. induction Hds as [|d ds Hd Hds IH]; intros s T Hinv; simpl.
  - apply (session_inv_ext rate T); [unfold elapsed; simpl; lra | done].
  - apply (session_inv_ext rate (T + d + elapsed ds));
      [unfold elapsed; simpl; lra|].
    apply IH. by apply merge_useFrame_inv.
Qed.

(** After any frames of non-negative length, both sessions satisfy the
    invariant for the elapsed time. *)
Lemma paper_run_inv rate ds :
  0 <= rate → Forall (λ d, 0 <= d) ds →
  let s := paper_run rate ds in
  session_inv rate (elapsed ds)
    (rollProgress s) (transitionCompleteRef s) (completions s).
Proof.
  intros Hr Hds. cbv zeta.
  apply (session_inv_ext rate (0 + elapsed ds)); [lra|].
  apply (paper_fold_inv rate ds Hr Hds). apply session_inv_start.
Qed.

Lemma merge_run_inv rate ds :
  0 <= rate → Forall (λ d, 0 <= d) ds →
  let s := merge_run rate ds in
  session_inv rate (elapsed ds)
    (animProgress s) (animationCompleteRef s) (scheduled s).
Proof.
  intros Hr Hds. cbv zeta.
  apply (session_inv_ext rate (0 + elapsed ds)); [lra|].
  apply (merge_fold_inv rate ds Hr Hds). apply session_inv_start.
Qed.

(** What the invariant says about the callback. *)
Lemma session_inv_count rate T p f c :
  session_inv rate T p f c →
  (rate * T < 1 → c = 0%nat) ∧ (1 <= rate * T → c = 1%nat).
Proof.
  intros [Hp Hf Hc]. split; intros H; subst c.
  - destruct f; [|done]. assert (1 <= rate * T) by (by apply Hf). lra.
  - by rewrite (proj2 Hf H).
Qed.

(** Between two states of a session, the callback is called exactly when
    the progress goes from below 1 to 1. *)
Lemma session_inv_fires rate T T' p f c p' f' c' :
  session_inv rate T p f c → session_inv rate T' p' f' c' →
  c' = S c ↔ p < 1 ∧ p' = 1.
Proof.
  intros [Hp Hf Hc] [Hp' Hf' Hc']. subst p p' c c'.
  rewrite Rmin_1_lt, Rmin_1_eq, <- Hf'. split.
  - destruct f, f'; try done. intros _. split; [|done].
    apply Rnot_le_lt. intros Hx. by apply Hf in Hx.
  - intros [Hlt ->]. destruct f; [|done].
    assert (1 <= rate * T) by (by apply Hf). lra.
Qed.

Lemma Forall_nonneg ds : Forall (λ d, 0 <= d <= 1) ds → Forall (λ d, 0 <= d) ds.
Proof. intros H. eapply Forall_impl; [exact H|]. by intros d [? ?]. Qed.

(** In exact arithmetic, a transition at rate [rate] driven by frames of
    length between 0 and 1 has a closed form: after total time [T] the
    progress is [min(1, rate * T)]; the completion callback has not been
    called while [rate * T < 1] and has been called exactly once as soon
    as [1 <= rate * T]; on every further frame it is called exactly when
    that frame takes the progress from below 1 to 1.  The doubles of the
    code do not follow this closed form at the threshold: see
    [DoublesFacts]. *)
Lemma exact_transition_progress (rate : R) (deltas : list R) :
  0 < rate →
  Forall (λ d, 0 <= d <= 1) deltas →
  let T := elapsed deltas in
  let s := paper_run rate deltas in
  let m := merge_run rate deltas in
  (rollProgress s = Rmin 1 (rate * T) ∧ animProgress m = Rmin 1 (rate * T))
  ∧ (rate * T < 1 → completions s = 0%nat ∧ scheduled m = 0%nat)
  ∧ (1 <= rate * T → completions s = 1%nat ∧ scheduled m = 1%nat)
  ∧ (∀ d, 0 <= d <= 1 →
       let s' := paper_useFrame rate true d s in
       let m' := merge_useFrame rate true d m in
       (completions s' = S (completions s) ↔ rollProgress s < 1 ∧ rollProgress s' = 1)
       ∧ (scheduled m' = S (scheduled m) ↔ animProgress m < 1 ∧ animProgress m' = 1)
       ∧ (completions s' = completions s ∨ completions s' = S (completions s))
       ∧ (scheduled m' = scheduled m ∨ scheduled m' = S (scheduled m)))
  ∧ (1 <= rate * 100 →
       rollProgress (paper_run rate [100]) = 1
       ∧ completions (paper_run rate [100]) = 1%nat
       ∧ animProgress (merge_run rate [100]) = 1
       ∧ scheduled (merge_run rate [100]) = 1%nat)
  ∧ (let s1 := AnimatedPaper_useFrame true 100 (paper_effect true paper_mount) in
     let m1 := MergingScene_useFrame true 100 (merge_effect true merge_mount) in
     rollProgress s1 = 1 ∧ completions s1 = 1%nat
     ∧ animProgress m1 = 1 ∧ scheduled m1 = 1%nat).
Proof.
  intros Hrate Hds. cbv zeta.
  assert (Hr : 0 <= rate) by lra.
  pose proof (paper_run_inv rate deltas Hr (Forall_nonneg _ Hds)) as Hs.
  pose proof (merge_run_inv rate deltas Hr (Forall_nonneg _ Hds)) as Hm.
  cbv zeta in Hs, Hm.
  assert (Hhuge : ∀ r, 0 <= r → 1 <= r * 100 →
            rollProgress (paper_run r [100]) = 1
            ∧ completions (paper_run r [100]) = 1%nat
            ∧ animProgress (merge_run r [100]) = 1
            ∧ scheduled (merge_run r [100]) = 1%nat).
  { intros r Hr0 Hr1.
    assert (H100 : Forall (λ d, 0 <= d) [100]) by (repeat constructor; lra).
    pose proof (paper_run_inv r [100] Hr0 H100) as Hs1.
    pose proof (merge_run_inv r [100] Hr0 H100) as Hm1.
    cbv zeta in Hs1, Hm1.
    assert (E : elapsed [100] = 100) by (unfold elapsed; simpl; lra).
    rewrite E in Hs1, Hm1.
    destruct (session_inv_count _ _ _ _ _ Hs1) as [_ Hc1].
    destruct (session_inv_count _ _ _ _ _ Hm1) as [_ Hc2].
    rewrite (inv_progress _ _ _ _ _ Hs1), (inv_progress _ _ _ _ _ Hm1).
    rewrite (proj2 (Rmin_1_eq _) Hr1). auto. }
  destruct (session_inv_count _ _ _ _ _ Hs) as [Hs0 Hs1].
  destruct (session_inv_count _ _ _ _ _ Hm) as [Hm0 Hm1].
  split; [|split; [|split; [|split; [|split]]]].
  - split; [apply (inv_progress _ _ _ _ _ Hs) | apply (inv_progress _ _ _ _ _ Hm)].
  - auto.
  - auto.
  - intros d [Hd0 Hd1].
    pose proof (paper_useFrame_inv rate _ d _ Hr Hd0 Hs) as Hs'.
    pose proof (merge_useFrame_inv rate _ d _ Hr Hd0 Hm) as Hm'.
    cbv zeta in Hs', Hm'.
    split; [apply (session_inv_fires _ _ _ _ _ _ _ _ _ Hs Hs')|].
    split; [apply (session_inv_fires _ _ _ _ _ _ _ _ _ Hm Hm')|].
    rewrite (inv_count _ _ _ _ _ Hs), (inv_count _ _ _ _ _ Hs').
    rewrite (inv_count _ _ _ _ _ Hm), (inv_count _ _ _ _ _ Hm').
    pose proof (inv_flag _ _ _ _ _ Hs) as F1.
    pose proof (inv_flag _ _ _ _ _ Hs') as F1'.
    pose proof (inv_flag _ _ _ _ _ Hm) as F2.
    pose proof (inv_flag _ _ _ _ _ Hm') as F2'.
    assert (Hmono : 1 <= rate * elapsed deltas → 1 <= rate * (elapsed deltas + d)).
    { intros Hx. assert (0 <= rate * d) by (by apply Rmult_le_pos). lra. }
    split.
    + destruct (transitionCompleteRef (paper_run rate deltas)) eqn:E1;
        destruct (transitionCompleteRef (paper_useFrame rate true d (paper_run rate deltas)));
        auto.
      assert (false = true) by (apply F1', Hmono, F1; done). done.
    + destruct (animationCompleteRef (merge_run rate deltas)) eqn:E1;
        destruct (animationCompleteRef (merge_useFrame rate true d (merge_run rate deltas)));
        auto.
      assert (false = true) by (apply F2', Hmono, F2; done). done.
  - intros H100. by apply Hhuge.
  - destruct (Hhuge 0.8) as (H1 & H2 & _); [lra..|].
    destruct (Hhuge 0.35) as (_ & _ & H3 & H4); [lra..|].
    auto.
Qed.

(** Evaluates the comparisons of a run on given numbers, innermost first. *)
Ltac no_test t :=
  lazymatch t with
  | context [Rle_dec _ _] => fail
  | context [Rlt_dec _ _] => fail
  | _ => idtac
  end.

Ltac eval_frames :=
  unfold paper_run, merge_run, paper_effect, merge_effect, paper_mount,
    merge_mount, paper_useFrame, merge_useFrame, geb, ltb, Rmin;
  simpl;
  repeat (match goal with
          | |- context [Rle_dec ?a ?b] =>
              no_test a; no_test b;
              destruct (Rle_dec a b); [try (exfalso; lra) | try (exfalso; lra)]
          | |- context [Rlt_dec ?a ?b] =>
              no_test a; no_test b;
              destruct (Rlt_dec a b); [try (exfalso; lra) | try (exfalso; lra)]
          end; simpl);
  try reflexivity; try lra; try (f_equal; lra).

(** Two frames of half a second at rate 0.8: the progress is 0.8 and the
    callback has not been called; the third frame calls it. *)
Example paper_three_frames :
  rollProgress (paper_run 0.8 [0.5; 0.5]) = 0.8
  ∧ completions (paper_run 0.8 [0.5; 0.5]) = 0%nat
  ∧ paper_run 0.8 [0.5; 0.5; 0.5] = mkPaperSession 0.1 1 true 1
  ∧ paper_run 0.8 [0.5; 0.5; 0.5; 0.5] = mkPaperSession 0.1 1 true 1.
Proof.
  split; [|split; [|split]]; eval_frames.
Qed.

Example merge_three_frames :
  animProgress (merge_run 0.35 [1; 1]) = 0.7
  ∧ scheduled (merge_run 0.35 [1; 1]) = 0%nat
  ∧ animProgress (merge_run 0.35 [1; 1; 1]) = 1
  ∧ scheduled (merge_run 0.35 [1; 1; 1]) = 1%nat
  ∧ scheduled (merge_run 0.35 [1; 1; 1; 1]) = 1%nat.
Proof.
  assert (H : ∀ ds, Forall (λ d, 0 <= d) ds →
            animProgress (merge_run 0.35 ds) = Rmin 1 (0.35 * elapsed ds)
            ∧ (0.35 * elapsed ds < 1 → scheduled (merge_run 0.35 ds) = 0%nat)
            ∧ (1 <= 0.35 * elapsed ds → scheduled (merge_run 0.35 ds) = 1%nat)).
  { intros ds Hds.
    pose proof (merge_run_inv 0.35 ds ltac:(lra) Hds) as Hm. cbv zeta in Hm.
    split; [apply (inv_progress _ _ _ _ _ Hm)|].
    apply (session_inv_count _ _ _ _ _ Hm). }
  destruct (H [1; 1]) as (H1 & H2 & _); [repeat constructor; lra|].
  destruct (H [1; 1; 1]) as (H3 & _ & H4); [repeat constructor; lra|].
  destruct (H [1; 1; 1; 1]) as (_ & _ & H5); [repeat constructor; lra|].
  unfold elapsed in *. simpl in *.
  split; [rewrite H1; unfold Rmin; destruct (Rle_dec _ _); lra|].
  split; [apply H2; lra|].
  split; [rewrite H3; unfold Rmin; destruct (Rle_dec _ _); lra|].
  split; [apply H4; lra | apply H5; lra].
Qed.

(** The frame lengths are those of a clock and must not be negative: a
    negative one would take the progress back below 1. *)
Example negative_frame_rewinds :
  rollProgress (paper_run 0.8 [2; -1]) = 0.2
  ∧ completions (paper_run 0.8 [2; -1]) = 1%nat.
Proof.
  split; eval_frames.
Qed.

(** The master progress of a merge animation stays between 0 and 1. *)
Lemma animProgress_range rate ds :
  0 <= rate → Forall (λ d, 0 <= d) ds →
  0 <= animProgress (merge_run rate ds) <= 1.
Proof.
  intros Hr Hds.
  pose proof (merge_run_inv rate ds Hr Hds) as Hm. cbv zeta in Hm.
  rewrite (inv_progress _ _ _ _ _ Hm).
  assert (0 <= elapsed ds).
  { clear Hm. unfold elapsed. induction Hds; simpl; lra. }
  assert (0 <= rate * elapsed ds) by (by apply Rmult_le_pos).
  case_R; lra.
Qed.

End TransitionFacts.

(** ** Transitions in double precision *)

Module DoublesFacts.

Import Doubles.
Local Open Scope float_scope.
#[local] Set Warnings "-inexact-float".





















End DoublesFacts.

(** ** The phases of the merge animation *)

Module MergeFacts.

Import Types Transition Merge.
Local Open Scope R_scope.

Lemma clamp_range v : 0 <= clamp v 0 1 <= 1.
Proof. unfold clamp, Rmax, Rmin. repeat destruct (Rle_dec _ _); lra. Qed.

Lemma phase1_clamp p : 0 <= p → phase1 p = clamp (p * 2.5) 0 1.
Proof.
  intros Hp. unfold phase1, clamp, Rmax, Rmin.
  repeat destruct (Rle_dec _ _); lra.
Qed.

Lemma easeInOutCubic_spec t :
  easeInOutCubic t = if Rlt_dec t 0.5 then 4 * t ^ 3 else 1 - (-2 * t + 2) ^ 3 / 2.
Proof. unfold easeInOutCubic. destruct (Rlt_dec t 0.5); [ring|done]. Qed.

(** C6. At every frame of a merge animation the master progress [p] lies
    in [0, 1], and the three phases are the windows
    [clamp(p * 2.5, 0, 1)], [clamp((p - 0.4) * 2, 0, 1)] and
    [clamp((p - 0.7) * 3.33, 0, 1)]; the first and third are eased with
    the cubic ease-in-out, the second with the quartic ease-out, and the
    geometry is interpolated linearly from the eased values (the second
    window also scales the x positions and the group rotation directly). *)
Theorem merge_phases (rate : R) (deltas : list R) (filterType : option FilterType) :
  0 < rate →
  Forall (λ d, 0 <= d) deltas →
  let p := animProgress (merge_run rate deltas) in
  let fr := animating_frame filterType p in
  let e1 := clamp (p * 2.5) 0 1 in
  let e2 := clamp ((p - 0.4) * 2) 0 1 in
  let e3 := clamp ((p - 0.7) * 3.33) 0 1 in
  0 <= p <= 1
  ∧ (phase1 p = e1 ∧ phase2 p = e2 ∧ phase3 p = e3)
  ∧ (e1 = window p 0 2.5 ∧ e2 = window p 0.4 2 ∧ e3 = window p 0.7 3.33)
  ∧ moveEase fr = (if Rlt_dec e1 0.5 then 4 * e1 ^ 3 else 1 - (-2 * e1 + 2) ^ 3 / 2)
  ∧ rotateEase fr = 1 - (1 - e2) ^ 4
  ∧ coneEase fr = (if Rlt_dec e3 0.5 then 4 * e3 ^ 3 else 1 - (-2 * e3 + 2) ^ 3 / 2)
  ∧ (paperX fr = 1.8 + (0 - 1.8) * moveEase fr
     ∧ filterX fr = -1.8 + (0 - -1.8) * moveEase fr
     ∧ rotationAngle fr = - PI / 2 + (0 - - PI / 2) * rotateEase fr
     ∧ paperTopRadius fr = 0.20 + (0.18 - 0.20) * coneEase fr
     ∧ paperBottomRadius fr = 0.35 + (0.12 - 0.35) * coneEase fr
     ∧ paperHeight fr = 4 + (2.8 - 4) * coneEase fr
     ∧ filterHeight fr = 1.2 + (0.6 - 1.2) * coneEase fr)
  ∧ (paperPositionX fr = paperX fr * (1 - e2)
     ∧ filterPositionX fr = filterX fr * (1 - e2)
     ∧ groupRotationY fr = e2 * PI * 0.3).
Proof.
  intros Hrate Hds. cbv zeta.
  assert (Hp : 0 <= animProgress (merge_run rate deltas) <= 1)
    by (apply TransitionFacts.animProgress_range; [lra|done]).
  set (p := animProgress (merge_run rate deltas)) in *.
  split; [done|]. split.
  { split; [by apply phase1_clamp; lra|]. done. }
  split.
  { unfold window. rewrite Rminus_0_r. done. }
  unfold animating_frame. simpl.
  rewrite (phase1_clamp p) by lra.
  rewrite !easeInOutCubic_spec.
  split; [done|]. split; [done|]. split; [done|].
  split; [|done].
  repeat apply conj.
  all: first [lra | field].
Qed.

Lemma merge_phases_witness :
  let p := animProgress (merge_run 0.35 [1; 1]) in
  phase1 p = clamp (p * 2.5) 0 1 ∧ 0 <= p <= 1.
Proof.
  destruct (merge_phases 0.35 [1; 1] None) as (Hp & (H1 & _) & _).
  - lra.
  - repeat constructor; lra.
  - split; [exact H1 | exact Hp].
Defined.

End MergeFacts.

(** ** Colour overrides and texture maps *)

Module RenderFacts.

Import Types Render.
Local Open Scope R_scope.

Lemma or_default_truthy (a : option string) (b : string) :
  TextureCache.truthy a = true → ∃ c, a = Some c ∧ or_default a b = c.
Proof.
  destruct a as [c|]; [|done]. intros H. exists c.
  unfold or_default. by rewrite H.
Qed.

(** The claim as stated fails in the cone composition: with both colour
    overrides set, the paper material carries a clone of the procedural
    texture and the filter material a clone of the uploaded one. *)
Lemma color_override_counterexample :
  TextureCache.truthy (paperColorHex tinted_state) = true
  ∧ TextureCache.truthy (filterColorHex tinted_state) = true
  ∧ map (ConeMesh_paper tinted_state None (Some uploaded_texture) Procedural.init)
    = Some (Clone (Generated
        (Procedural.mkDataTexture 0 hemp 512 512 TextureCache.RepeatWrapping
           TextureCache.RepeatWrapping (1%nat, 1%nat) true)))
  ∧ map (ConeMesh_filter tinted_state None (Some uploaded_texture) Procedural.init)
    = Some (Clone (Custom uploaded_texture))
  ∧ ¬ (∀ state bp bf ps,
         TextureCache.truthy (paperColorHex state) = true →
         map (ConeMesh_paper state bp bf ps) = None).
Proof.
  assert (E : map (ConeMesh_paper tinted_state None (Some uploaded_texture) Procedural.init)
              = Some (Clone (Generated
                  (Procedural.mkDataTexture 0 hemp 512 512 TextureCache.RepeatWrapping
                     TextureCache.RepeatWrapping (1%nat, 1%nat) true)))).
  { reflexivity. }
  split; [reflexivity|]. split; [reflexivity|]. split; [exact E|].
  split; [reflexivity|].
  intros H.
  specialize (H tinted_state None (Some uploaded_texture) Procedural.init eq_refl).
  rewrite E in H. discriminate H.
Qed.

Lemma cone_maps_colors pc fc state bp bf ps :
  ConeMesh_maps (with_colors pc fc state) bp bf ps = ConeMesh_maps state bp bf ps.
Proof. reflexivity. Qed.

(** C3, amended. When [paperColorHex] is set, the rolled-paper material
    of [AnimatedPaper] has the override as its colour and no texture
    map, whatever custom or procedural texture there is, and that is the
    material of every frame of a transition whose roll progress is above
    0.1.  In the cone composition the paper and filter maps are the same
    for every choice of the colour overrides. *)
Theorem color_override_rolled_paper (props : PaperViewerProps)
    (customTexture : option TextureCache.Texture) (rollProgress : R)
    (ps : Procedural.State) :
  TextureCache.truthy (pv_paperColorHex props) = true →
  (∀ effective, effectiveTextureOrNull (pv_paperColorHex props) effective = None)
  ∧ (∀ m ps', AnimatedPaper props customTexture rollProgress ps = (RollMesh m, ps') →
       map m = None ∧ ∃ c, pv_paperColorHex props = Some c ∧ color m = Hex c)
  ∧ (pv_isTransitioning props = true → 0.1 < rollProgress →
       ∃ m ps', AnimatedPaper props customTexture rollProgress ps = (RollMesh m, ps')
                ∧ map m = None)
  ∧ (∀ state pc fc bp bf cs,
       map (ConeMesh_paper (with_colors pc fc state) bp bf cs)
       = map (ConeMesh_paper state bp bf cs)
       ∧ map (ConeMesh_filter (with_colors pc fc state) bp bf cs)
         = map (ConeMesh_filter state bp bf cs)).
Proof.
  intros Hc.
  assert (Hnull : ∀ effective,
            effectiveTextureOrNull (pv_paperColorHex props) effective = None).
  { intros e. unfold effectiveTextureOrNull. by rewrite Hc. }
  destruct (or_default_truthy (pv_paperColorHex props)
              (defaultPaperColors (Procedural.effective (pv_paperType props))) Hc)
    as (c & Hsome & Hdef).
  assert (Hroll : ∀ m ps',
            AnimatedPaper props customTexture rollProgress ps = (RollMesh m, ps') →
            map m = None ∧ color m = Hex c).
  { intros m ps'. unfold AnimatedPaper.
    destruct (proceduralTexture _ _ _) as [procedural ps1].
    destruct (materialProps _) as [rough metal].
    rewrite Hnull, Hdef.
    destruct (pv_isTransitioning props && Transition.ltb 0.1 rollProgress);
      intros H; inversion H; subst. done. }
  split; [exact Hnull|]. split; [|split].
  - intros m ps' H. destruct (Hroll m ps' H) as [? ?]. eauto.
  - intros Ht Hp. unfold AnimatedPaper.
    destruct (proceduralTexture _ _ _) as [procedural ps1].
    destruct (materialProps _) as [rough metal].
    rewrite Ht, (proj2 (TransitionFacts.ltb_true 0.1 rollProgress) Hp), Hnull.
    simpl. eauto.
  - intros state pc fc bp bf cs. unfold ConeMesh_paper, ConeMesh_filter.
    rewrite cone_maps_colors.
    destruct (ConeMesh_maps state bp bf cs) as [[paperMap filterMap] cs'].
    split; [done|]. simpl.
    destruct (filterType state) as [[]|]; done.
Qed.

Lemma color_override_rolled_paper_witness :
  ∃ m ps',
    AnimatedPaper (mkPaperViewerProps (Some rice) (Some "#ff0000") None true)
      None 0.5 Procedural.init = (RollMesh m, ps')
    ∧ map m = None.
Proof.
  destruct (color_override_rolled_paper
              (mkPaperViewerProps (Some rice) (Some "#ff0000") None true)
              None 0.5 Procedural.init eq_refl) as (_ & _ & H & _).
  apply H; [reflexivity | lra].
Defined.

End RenderFacts.

(** * Further properties *)

(** ** More on the texture cache *)

Module CacheMore.

Import TextureCache CacheInv CacheFacts.

Lemma settle_is_Some p v h q : is_Some (settle p v h !! q) → is_Some (h !! q).
Proof.
  unfold settle. destruct (h !! p) as [[]|] eqn:E; try done.
  destruct (decide (p = q)) as [->|Hne].
  - rewrite E. eauto.
  - by rewrite lookup_insert_ne.
Qed.

Lemma accounted_init : accounted init.
Proof.
  split; simpl.
  - intros p [x H]. by rewrite lookup_empty in H.
  - intros u p H. by apply elem_of_nil in H.
  - intros u [x H]. by rewrite lookup_empty in H.
Qed.

Lemma accounted_step e s : accounted s → accounted (step e s).
Proof.
  intros [Hh Ho Hc]. destruct e as [url|url|url p tex|url p err|]; simpl.
  - unfold preloadTexture.
    destruct (globalTextureCache s !! url) as [tex|] eqn:E; simpl.
    + split; simpl; [|done..].
      intros q Hq. destruct (decide (nextPromise s = q)) as [<-|Hne]; [lia|].
      rewrite lookup_insert_ne in Hq by done. specialize (Hh q Hq). lia.
    + destruct (texturePromises s !! url) as [q|]; simpl; [done|].
      split; simpl.
      * intros q Hq. destruct (decide (nextPromise s = q)) as [<-|Hne]; [lia|].
        rewrite lookup_insert_ne in Hq by done. specialize (Hh q Hq). lia.
      * intros u q Hq. apply elem_of_app in Hq as [Hq|Hq]; apply elem_of_app.
        -- left. by apply (Ho u q).
        -- right. apply list_elem_of_singleton in Hq. inversion Hq; subst.
           by apply list_elem_of_singleton.
      * intros u Hu. apply elem_of_app. left. by apply Hc.
  - unfold getCachedTexture. destruct (negb (truthy url)); [done|].
    by destruct url.
  - case_bool_decide as Hin; [|done]. split; simpl.
    + intros q Hq. apply Hh. by apply settle_is_Some in Hq.
    + intros u q Hq. apply remove_request_elem in Hq as [_ Hq]. by apply (Ho u q).
    + intros u Hu. destruct (decide (url = u)) as [<-|Hne].
      * by apply (Ho url p).
      * rewrite lookup_insert_ne in Hu by done. by apply Hc.
  - case_bool_decide as Hin; [|done]. split; simpl.
    + intros q Hq. apply Hh. by apply settle_is_Some in Hq.
    + intros u q Hq. apply remove_request_elem in Hq as [_ Hq]. by apply (Ho u q).
    + done.
  - split; simpl; [done..|].
    intros u [x H]. by rewrite lookup_empty in H.
Qed.

Lemma accounted_run es s : accounted s → accounted (run es s).
Proof.
  revert s. induction es as [|e es IH]; intros s H; simpl; [done|].
  apply IH. by apply accounted_step.
Qed.

Lemma reachable_accounted s : reachable s → accounted s.
Proof. intros [es ->]. apply accounted_run, accounted_init. Qed.

Lemma reachable_step e s : reachable s → reachable (step e s).
Proof.
  intros [es ->]. exists (es ++ [e]). unfold run. by rewrite fold_left_app.
Qed.

Lemma reachable_run es s : reachable s → reachable (run es s).
Proof.
  revert s. induction es as [|e es IH]; intros s H; simpl; [done|].
  apply IH. by apply reachable_step.
Qed.

(** X1. When the success callback of a request in flight runs for a
    non-empty url, the synchronous lookup returns the loaded texture at
    once: the same object, set to repeat on both axes with a 1 x 1 repeat,
    tagged sRGB and marked for upload; the request's promise is fulfilled
    with it, its entry in [texturePromises] is gone, and a later
    [preloadTexture] answers with it without a load. *)
Theorem lookup_after_onLoad (url : string) (p : PromiseId) (tex : Texture) (s : State) :
  reachable s →
  (url, p) ∈ outstanding s →
  url ≠ "" →
  let s' := step (Loaded url p tex) s in
  let tex' := configure tex in
  fst (getCachedTexture (Some url) s') = Some tex'
  ∧ promiseHeap s' !! p = Some (Fulfilled tex')
  ∧ texturePromises s' !! url = None
  ∧ (tex_id tex' = tex_id tex
     ∧ wrapS tex' = RepeatWrapping ∧ wrapT tex' = RepeatWrapping
     ∧ repeat_xy tex' = (1, 1) ∧ needsUpdate tex' = true
     ∧ (if has_colorSpace tex then colorSpace tex' = SRGBColorSpace
        else encoding tex' = sRGBEncoding))
  ∧ (let '(q, s'') := preloadTexture url s' in
     promiseHeap s'' !! q = Some (Fulfilled tex') ∧ loadLog s'' = loadLog s).
Proof.
  intros Hreach Hin Hne. apply reachable_wf in Hreach as Hwf.
  destruct (wf_pending _ Hwf url p Hin) as [_ Hpe].
  cbv zeta. simpl. rewrite bool_decide_eq_true_2 by done.
  split; [|split; [|split; [|split]]].
  - unfold getCachedTexture.
    rewrite (proj2 (truthy_Some url) Hne). simpl. apply lookup_insert_eq.
  - simpl. by apply settle_pending.
  - simpl. apply lookup_delete_eq.
  - unfold configure. simpl. destruct (has_colorSpace tex); simpl; done.
  - unfold preloadTexture. simpl. rewrite lookup_insert_eq. simpl.
    by rewrite lookup_insert_eq.
Qed.

Lemma lookup_after_onLoad_witness :
  fst (getCachedTexture (Some "img1.png")
         (step (Loaded "img1.png" 0
                  (mkTexture 3 ClampToEdgeWrapping ClampToEdgeWrapping (1, 1)
                     true NoColorSpace LinearEncoding false))
            (snd (preloadTexture "img1.png" init))))
  = Some (configure (mkTexture 3 ClampToEdgeWrapping ClampToEdgeWrapping (1, 1)
                       true NoColorSpace LinearEncoding false)).
Proof.
  apply (lookup_after_onLoad "img1.png" 0
           (mkTexture 3 ClampToEdgeWrapping ClampToEdgeWrapping (1, 1)
              true NoColorSpace LinearEncoding false)
           (snd (preloadTexture "img1.png" init))).
  - by exists [Acquire "img1.png"].
  - vm_compute. apply list_elem_of_here.
  - discriminate.
Defined.

(** X4. In every state the cache can reach, a url with an entry in
    [texturePromises] is not in the resolved cache, its promise is
    pending, two such urls never share a promise, and every url that is
    in flight or resolved has been handed to the loader. *)
Theorem cache_invariant (s : State) :
  reachable s →
  (∀ u p, texturePromises s !! u = Some p →
     globalTextureCache s !! u = None
     ∧ promiseHeap s !! p = Some Pending
     ∧ (u, p) ∈ outstanding s
     ∧ u ∈ loadLog s)
  ∧ (∀ u1 u2 p, texturePromises s !! u1 = Some p →
       texturePromises s !! u2 = Some p → u1 = u2)
  ∧ (∀ u tex, globalTextureCache s !! u = Some tex →
       texturePromises s !! u = None ∧ u ∈ loadLog s).
Proof.
  intros Hreach.
  pose proof (reachable_wf s Hreach) as Hwf.
  pose proof (reachable_accounted s Hreach) as Hacc.
  split; [|split].
  - intros u p Hu. destruct (wf_promises _ Hwf u p Hu) as [Hout Hc].
    destruct (wf_pending _ Hwf u p Hout) as [_ Hpe].
    repeat split; try done. by apply (acc_outstanding _ Hacc u p).
  - intros u1 u2 p H1 H2.
    destruct (wf_promises _ Hwf u1 p H1) as [Ho1 _].
    destruct (wf_promises _ Hwf u2 p H2) as [Ho2 _].
    by apply (nodup_snd_inj (outstanding s) u1 u2 p (wf_nodup _ Hwf)).
  - intros u tex Hu. split.
    + destruct (texturePromises s !! u) as [p|] eqn:E; [|done].
      destruct (wf_promises _ Hwf u p E) as [_ Hc]. congruence.
    + apply (acc_cache _ Hacc). eauto.
Qed.

Lemma cache_invariant_witness :
  let s := run [Acquire "a.png"; Acquire "b.png";
                Loaded "a.png" 0 (mkTexture 3 ClampToEdgeWrapping ClampToEdgeWrapping
                                    (1, 1) true NoColorSpace LinearEncoding false)] init in
  globalTextureCache s !! "b.png" = None
  ∧ promiseHeap s !! 1 = Some Pending
  ∧ ("b.png", 1) ∈ outstanding s
  ∧ "b.png" ∈ loadLog s.
Proof.
  cbv zeta.
  eapply (proj1 (cache_invariant _ _)). reflexivity.
  Unshelve. by eexists.
Defined.

(** X5. [clearTextureCache()] forgets but does not cancel.  After it
    every lookup returns [null] and every acquire hands its url to the
    loader again; but a request that was in flight stays in flight with
    its promise untouched, and when it calls back its texture is put into
    the resolved cache and its promise is fulfilled. *)
Theorem clear_does_not_cancel (url : string) (p : PromiseId) (tex : Texture) (s : State) :
  reachable s →
  (url, p) ∈ outstanding s →
  let s1 := clearTextureCache s in
  (∀ u, fst (getCachedTexture u s1) = None)
  ∧ (∀ u, loadLog (snd (preloadTexture u s1)) = loadLog s ++ [u])
  ∧ promiseHeap s1 = promiseHeap s
  ∧ promiseHeap s1 !! p = Some Pending
  ∧ (url, p) ∈ outstanding s1
  ∧ (let s2 := step (Loaded url p tex) s1 in
     globalTextureCache s2 !! url = Some (configure tex)
     ∧ promiseHeap s2 !! p = Some (Fulfilled (configure tex))
     ∧ disposeLog s2 = disposeLog s1).
Proof.
  intros Hreach Hin. apply reachable_wf in Hreach as Hwf.
  destruct (wf_pending _ Hwf url p Hin) as [_ Hpe].
  cbv zeta. split; [|split; [|split; [|split; [|split]]]].
  - intros u. unfold getCachedTexture. destruct (negb (truthy u)); [done|].
    destruct u; [|done]. simpl. apply lookup_empty.
  - intros u. unfold preloadTexture. simpl. by rewrite !lookup_empty.
  - done.
  - done.
  - done.
  - simpl. rewrite bool_decide_eq_true_2 by done. simpl.
    split; [apply lookup_insert_eq|]. split; [by apply settle_pending | done].
Qed.

Lemma clear_does_not_cancel_witness :
  let tex := mkTexture 3 ClampToEdgeWrapping ClampToEdgeWrapping (1, 1)
               true NoColorSpace LinearEncoding false in
  let s1 := clearTextureCache (snd (preloadTexture "img1.png" init)) in
  globalTextureCache (step (Loaded "img1.png" 0 tex) s1) !! "img1.png"
  = Some (configure tex).
Proof.
  cbv zeta.
  destruct (clear_does_not_cancel "img1.png" 0
              (mkTexture 3 ClampToEdgeWrapping ClampToEdgeWrapping (1, 1)
                 true NoColorSpace LinearEncoding false)
              (snd (preloadTexture "img1.png" init)))
    as (_ & _ & _ & _ & _ & H & _).
  - by exists [Acquire "img1.png"].
  - vm_compute. apply list_elem_of_here.
  - exact H.
Defined.

Lemma no_clear_step e s :
  no_clear e = true → disposeLog (step e s) = disposeLog s.
Proof.
  intros He. destruct e as [url|url|url p tex|url p err|]; simpl; try done.
  - unfold preloadTexture. destruct (globalTextureCache s !! url); [done|].
    by destruct (texturePromises s !! url).
  - unfold getCachedTexture. destruct (negb (truthy url)); [done|]. by destruct url.
  - by case_bool_decide.
  - by case_bool_decide.
Qed.

(** X6. Only [clearTextureCache()] disposes textures: over any sequence
    of acquires, lookups and loader callbacks nothing is disposed, not
    even a texture that a later load of the same url replaces in the
    resolved cache. *)
Theorem dispose_only_by_clear (es : list Event) (s : State) :
  forallb no_clear es = true →
  disposeLog (run es s) = disposeLog s
  ∧ (∀ url p tex old,
       globalTextureCache (run es s) !! url = Some old →
       let s' := onLoad url p tex (run es s) in
       globalTextureCache s' !! url = Some (configure tex)
       ∧ disposeLog s' = disposeLog s).
Proof.
  intros Hes.
  assert (E : disposeLog (run es s) = disposeLog s).
  { revert s. induction es as [|e es IH]; intros s; simpl in *; [done|].
    apply andb_true_iff in Hes as [He Hes].
    rewrite (IH Hes). by apply no_clear_step. }
  split; [exact E|].
  intros url p tex old _. cbv zeta. simpl. split; [apply lookup_insert_eq | exact E].
Qed.

Lemma dispose_only_by_clear_witness :
  let t0 := mkTexture 3 ClampToEdgeWrapping ClampToEdgeWrapping (1, 1)
              true NoColorSpace LinearEncoding false in
  let t1 := mkTexture 4 ClampToEdgeWrapping ClampToEdgeWrapping (1, 1)
              true NoColorSpace LinearEncoding false in
  let s := run [Acquire "img1.png"; Clear; Acquire "img1.png"] init in
  disposeLog (run [Loaded "img1.png" 0 t0; Loaded "img1.png" 1 t1] s) = disposeLog s.
Proof.
  cbv zeta.
  eapply (proj1 (dispose_only_by_clear _ _ _)).
  Unshelve. reflexivity.
Defined.

(** The scenario of the witness: the second load replaces the texture of
    the first, which is never disposed. *)
Example replaced_texture_leaks :
  let t0 := mkTexture 3 ClampToEdgeWrapping ClampToEdgeWrapping (1, 1)
              true NoColorSpace LinearEncoding false in
  let t1 := mkTexture 4 ClampToEdgeWrapping ClampToEdgeWrapping (1, 1)
              true NoColorSpace LinearEncoding false in
  let s := run [Acquire "img1.png"; Clear; Acquire "img1.png";
                Loaded "img1.png" 0 t0; Loaded "img1.png" 1 t1] init in
  globalTextureCache s !! "img1.png" = Some (configure t1)
  ∧ promiseHeap s !! 0 = Some (Fulfilled (configure t0))
  ∧ disposeLog (clearTextureCache s) = [configure t1].
Proof. cbv zeta. repeat split; reflexivity. Qed.

End CacheMore.

(** ** More on the procedural textures *)

Module ProceduralMore.

Import Types Procedural PaperPalette ProceduralFacts.

Section NoiseBounds.
Local Open Scope R_scope.

Lemma sin_cos_bound a b : Rabs (sin a * cos b) <= 1.
Proof.
  rewrite Rabs_mult.
  assert (Rabs (sin a) <= 1) by (apply Rabs_le; apply SIN_bound).
  assert (Rabs (cos b) <= 1) by (apply Rabs_le; apply COS_bound).
  pose proof (Rabs_pos (sin a)). pose proof (Rabs_pos (cos b)). nra.
Qed.

Lemma sum_below_weighted n (w a : nat → R) :
  (∀ k, Rabs (w k) <= 1) → (∀ k, 0 <= a k) →
  Rabs (sum_below n (λ k, w k * a k)) <= sum_below n a.
Proof.
  intros Hw Ha. induction n as [|n IH]; simpl.
  - rewrite Rabs_R0. lra.
  - eapply Rle_trans; [apply Rabs_triang|].
    apply Rplus_le_compat; [exact IH|].
    rewrite Rabs_mult, (Rabs_right (a n)) by (apply Rle_ge, Ha).
    specialize (Hw n). specialize (Ha n). nra.
Qed.

(** What the loop leaves in its accumulators: a positive divisor that
    bounds the weighted sum. *)
Lemma noise_loop_ratio x y n scale :
  (1 ≤ n)%nat →
  let '(v, m) := noise_loop n x y 0 1 scale 0 in
  0 < m ∧ Rabs v <= m.
Proof.
  intros Hn. rewrite noise_loop_sum, !Rplus_0_l. split.
  - rewrite (sum_below_ext n _ a_).
    + by apply sum_below_a_pos.
    + intros k. unfold a_. ring.
  - apply (sum_below_weighted n
      (λ k, sin (x * (scale * 2 ^ k)) * cos (y * (scale * 2 ^ k)))
      (λ k, 1 * 0.5 ^ k)).
    + intros k. apply sin_cos_bound.
    + intros k. rewrite Rmult_1_l. apply pow_le. lra.
Qed.

Lemma Rabs_ratio v m : 0 < m → Rabs v <= m → Rabs (v / m) <= 1.
Proof.
  intros Hm Hv. unfold Rdiv. rewrite Rabs_mult.
  rewrite (Rabs_right (/ m)) by (apply Rle_ge, Rlt_le, Rinv_0_lt_compat, Hm).
  apply (Rmult_le_reg_r m); [done|]. field_simplify; lra.
Qed.

(** X7. The noise is normalised: for at least one octave the value of
    [fractalNoise] never exceeds the intensity in absolute value,
    whatever the coordinates and the scale. *)
Theorem fractalNoise_bounded (x y : R) (n : nat) (scale intensity : R) :
  (1 ≤ n)%nat →
  Rabs (fractalNoise x y n scale intensity) <= Rabs intensity.
Proof.
  intros Hn. unfold fractalNoise.
  pose proof (noise_loop_ratio x y n scale Hn) as H.
  destruct (noise_loop n x y 0 1 scale 0) as [v m]. destruct H as [Hm Hv].
  rewrite Rabs_mult.
  pose proof (Rabs_ratio v m Hm Hv). pose proof (Rabs_pos (v / m)).
  pose proof (Rabs_pos intensity). nra.
Qed.

Lemma fractalNoise_bounded_witness :
  Rabs (fractalNoise 1 2 3 6 0.2) <= Rabs 0.2.
Proof. apply fractalNoise_bounded. lia. Defined.

Lemma noise_within x y n scale intensity :
  (1 ≤ n)%nat → 0 <= intensity →
  - intensity <= fractalNoise x y n scale intensity <= intensity.
Proof.
  intros Hn Hi. unfold fractalNoise.
  pose proof (noise_loop_ratio x y n scale Hn) as H.
  destruct (noise_loop n x y 0 1 scale 0) as [v m]. destruct H as [Hm Hv].
  pose proof (Rabs_ratio v m Hm Hv) as Hr.
  unfold Rabs in Hr. destruct (Rcase_abs (v / m)); nra.
Qed.

Lemma clamp_channel_id v : 0 <= v <= 255 → clamp_channel v = v.
Proof.
  intros [H0 H1]. unfold clamp_channel, Rmax, Rmin.
  repeat destruct (Rle_dec _ _); lra.
Qed.

Lemma Rabs_sin_range t : 0 <= Rabs (sin t) <= 1.
Proof. split; [apply Rabs_pos|]. apply Rabs_le, SIN_bound. Qed.

(** Names every noise value of the goal and records its bounds. *)
Ltac bound_noise :=
  repeat match goal with
         | |- context [fractalNoise ?a ?b ?n ?s ?i] =>
             let N := fresh "N" in
             let H := fresh "HN" in
             pose proof (noise_within a b n s i ltac:(lia) ltac:(lra)) as H;
             set (N := fractalNoise a b n s i) in *; clearbody N
         | |- context [Rabs (sin ?t)] =>
             let F := fresh "F" in
             let H := fresh "HF" in
             pose proof (Rabs_sin_range t) as H;
             set (F := Rabs (sin t)) in *; clearbody F
         end.

(** X8. The paper textures never saturate: for every paper type and grid
    cell the clamp to [0, 255] leaves all four channels as computed, each
    colour channel stays within 10 of the type's base colour, and the
    alpha channel is the base alpha (240 for rice, 255 otherwise). *)
Theorem texel_near_base (k : PaperType) (i j : nat) :
  texel k i j = cell_rgba k (INR i / INR size * 12) (INR j / INR size * 12)
  ∧ (let '(r, g, b, a) := texel k i j in
     let '(r0, g0, b0, a0) := base_rgba k in
     Rabs (r - r0) < 10 ∧ Rabs (g - g0) < 10 ∧ Rabs (b - b0) < 10 ∧ a = a0).
Proof.
  unfold texel.
  set (x := INR i / INR size * 12). set (y := INR j / INR size * 12).
  clearbody x y.
  destruct k; cbn [cell_rgba base_rgba]; bound_noise;
    rewrite !clamp_channel_id by lra;
    (split; [reflexivity|]);
    repeat split; try reflexivity; apply Rabs_def1; lra.
Qed.

End NoiseBounds.


Lemma length_by_kind (l : list PaperType) :
  length l
  = length (filter (λ j, j = unbleached) l) + length (filter (λ j, j = hemp) l)
    + length (filter (λ j, j = bleached) l) + length (filter (λ j, j = colored) l)
    + length (filter (λ j, j = rice) l) + length (filter (λ j, j = bamboo) l).
Proof.
  induction l as [|k l IH]; [done|].
  rewrite !filter_cons. destruct k; repeat case_decide; try done; simpl; lia.
Qed.

(** X9. Buffers are per kind: at any point of a process, calls of
    [getProceduralTexture] with different effective kinds return
    different buffer objects, each generated for its kind, and
    [generatePaperTexture] has run at most six times in all. *)
Theorem procedural_buffers_per_kind (calls : list (option PaperType))
    (k1 k2 : option PaperType) :
  let s := run calls init in
  let '(t1, s1) := getProceduralTexture k1 s in
  let '(t2, s2) := getProceduralTexture k2 s1 in
  (∃ b1 b2, t1 = Some b1 ∧ t2 = Some b2
     ∧ dt_kind b1 = effective k1 ∧ dt_kind b2 = effective k2
     ∧ (dt_id b1 = dt_id b2 ↔ effective k1 = effective k2))
  ∧ length (generated s2) ≤ 6
  ∧ stdpp.base.size (proceduralTextureCache s2) ≤ 6.
Proof.
  cbv zeta.
  pose proof (memo_inv_run calls init memo_inv_init) as Hinv.
  pose proof (memo_inv_step k1 _ Hinv) as Hinv1.
  destruct (getProceduralTexture_some k1 (run calls init)) as (b1 & Ht1 & Hc1).
  destruct (getProceduralTexture k1 (run calls init)) as [t1 s1].
  simpl in Ht1, Hc1, Hinv1. subst t1.
  pose proof (memo_inv_step k2 _ Hinv1) as Hinv2.
  destruct (getProceduralTexture_some k2 s1) as (b2 & Ht2 & Hc2).
  assert (Hkeep : proceduralTextureCache (snd (getProceduralTexture k2 s1))
                    !! effective k1 = Some b1).
  { destruct (proceduralTextureCache s1 !! effective k2) as [t|] eqn:E.
    - by rewrite (getProceduralTexture_hit k2 t s1 E).
    - destruct (getProceduralTexture_miss k2 s1 E) as (t & -> & _). simpl.
      rewrite lookup_insert_ne; [done|]. intros Heq. congruence. }
  destruct (getProceduralTexture k2 s1) as [t2 s2].
  simpl in Ht2, Hc2, Hinv2, Hkeep. subst t2.
  destruct Hinv2 as [Hk Hr Hi].
  assert (Hlen : length (generated s2) ≤ 6).
  { rewrite length_by_kind.
    pose proof (Hr unbleached). pose proof (Hr hemp). pose proof (Hr bleached).
    pose proof (Hr colored). pose proof (Hr rice). pose proof (Hr bamboo).
    unfold runs_of in *.
    repeat match goal with
           | H : context [proceduralTextureCache s2 !! ?k] |- _ =>
               destruct (proceduralTextureCache s2 !! k)
           end; lia. }
  split; [|split; [exact Hlen|]].
  - exists b1, b2. destruct (Hk _ _ Hkeep) as [Hk1 _]. destruct (Hk _ _ Hc2) as [Hk2 _].
    repeat split; try done.
    + intros Hid. by apply (Hi _ _ b1 b2).
    + intros Heq. rewrite Heq in Hkeep. congruence.
  - assert (Hsub : ∀ k, is_Some (proceduralTextureCache s2 !! k) →
               k ∈ [unbleached; hemp; bleached; colored; rice; bamboo]).
    { intros k _.
      destruct k; repeat first [apply list_elem_of_here | apply list_elem_of_further]. }
    rewrite <- size_dom.
    transitivity (stdpp.base.size (list_to_set (C := gset PaperType)
                          [unbleached; hemp; bleached; colored; rice; bamboo])).
    + apply subseteq_size. intros k Hk'. apply elem_of_dom in Hk'.
      apply elem_of_list_to_set. by apply Hsub.
    + vm_compute. lia.
Qed.

End ProceduralMore.

(** ** More on the transitions *)

Module TransitionMore.

Import Transition Sessions TransitionFacts.
Local Open Scope R_scope.

(** One frame outside a transition, on the unfolding scale alone. *)
Lemma unfold_frame d s :
  AnimatedPaper_useFrame false d s
  = mkPaperSession
      (let next := scaleY s + (1 - scaleY s) * Rmin 1 (d * 6) in
       if Rlt_dec 0.99 next then 1 else next)
      (rollProgress s) (transitionCompleteRef s) (completions s).
Proof. reflexivity. Qed.

Lemma unfold_frame_range d s :
  0 <= d → 0.1 <= scaleY s <= 1 →
  let s' := AnimatedPaper_useFrame false d s in
  0.1 <= scaleY s' <= 1
  ∧ scaleY s <= scaleY s'
  ∧ (scaleY s' = 1 ∨ scaleY s' <= 0.99)
  ∧ (scaleY s = 1 → scaleY s' = 1).
Proof.
  intros Hd Hs. cbv zeta. rewrite unfold_frame. cbn [scaleY].
  assert (Hm : 0 <= Rmin 1 (d * 6) <= 1) by (unfold Rmin; destruct (Rle_dec _ _); lra).
  set (m := Rmin 1 (d * 6)) in *. clearbody m.
  assert (0 <= (1 - scaleY s) * m) by (apply Rmult_le_pos; lra).
  assert ((1 - scaleY s) * m <= 1 - scaleY s) by nra.
  destruct (Rlt_dec 0.99 _); repeat split; lra.
Qed.

(** X11. The unfolding of the flat paper (outside a transition): over
    frames of non-negative length the scale stays between 0.1 and 1, it
    never decreases from one frame to the next, a value above 0.99 is
    snapped to 1 and then stays 1, and neither the roll progress nor the
    completion callback is touched. *)
Theorem unfold_scale_monotone (deltas : list R) (d : R) :
  Forall (λ d, 0 <= d) deltas →
  0 <= d →
  let s := unfold_run deltas in
  let s' := AnimatedPaper_useFrame false d s in
  0.1 <= scaleY s <= 1
  ∧ (scaleY s = 1 ∨ scaleY s <= 0.99)
  ∧ scaleY s <= scaleY s'
  ∧ (scaleY s = 1 → scaleY s' = 1)
  ∧ rollProgress s = 0 ∧ transitionCompleteRef s = false ∧ completions s = 0%nat.
Proof.
  intros Hds Hd. cbv zeta.
  assert (Hinv : ∀ ds s0,
            Forall (λ d, 0 <= d) ds →
            0.1 <= scaleY s0 <= 1 → (scaleY s0 = 1 ∨ scaleY s0 <= 0.99) →
            let s := fold_left (λ s d, AnimatedPaper_useFrame false d s) ds s0 in
            0.1 <= scaleY s <= 1 ∧ (scaleY s = 1 ∨ scaleY s <= 0.99)
            ∧ rollProgress s = rollProgress s0
            ∧ transitionCompleteRef s = transitionCompleteRef s0
            ∧ completions s = completions s0).
  { intros ds s0 H. revert s0.
    induction H as [|x ds Hx Hxs IH]; intros s0 Hr Hsnap; cbn [fold_left].
    - done.
    - destruct (unfold_frame_range x s0 Hx Hr) as (Hr' & _ & Hsnap' & _).
      destruct (IH _ Hr' Hsnap') as (? & ? & E1 & E2 & E3).
      rewrite E1, E2, E3. by rewrite unfold_frame. }
  destruct (Hinv deltas (paper_effect false paper_mount) Hds) as (Hr & Hsnap & E1 & E2 & E3).
  { simpl. lra. } { right. simpl. lra. }
  destruct (unfold_frame_range d (unfold_run deltas) Hd Hr) as (_ & Hmono & _ & Hstay).
  unfold unfold_run in *. rewrite E1, E2, E3.
  split; [exact Hr|]. split; [exact Hsnap|]. split; [exact Hmono|].
  split; [exact Hstay|]. done.
Qed.

Lemma unfold_scale_monotone_witness :
  scaleY (unfold_run [0.016; 0.016])
  <= scaleY (AnimatedPaper_useFrame false 0.016 (unfold_run [0.016; 0.016])).
Proof.
  destruct (unfold_scale_monotone [0.016; 0.016] 0.016) as (_ & _ & H & _).
  - repeat constructor; lra.
  - lra.
  - exact H.
Defined.




End TransitionMore.

(** ** More on transitions in double precision *)

Module DoublesMore.

Import Doubles DoublesFacts.
Local Open Scope float_scope.


End DoublesMore.

(** ** More on the merge animation *)

Module MergeMore.

Import Types Transition Merge TransitionFacts MergeFacts.
Local Open Scope R_scope.

Lemma cube_le a b : 0 <= a <= b → a ^ 3 <= b ^ 3.
Proof. intros [H0 H1]. apply pow_incr. lra. Qed.

Lemma easeInOutCubic_range t : 0 <= t <= 1 → 0 <= easeInOutCubic t <= 1.
Proof.
  intros [H0 H1]. rewrite easeInOutCubic_spec. destruct (Rlt_dec t 0.5).
  - pose proof (cube_le 0 t ltac:(lra)). pose proof (cube_le t 0.5 ltac:(lra)). lra.
  - pose proof (cube_le 0 (-2 * t + 2) ltac:(lra)).
    pose proof (cube_le (-2 * t + 2) 1 ltac:(lra)). lra.
Qed.

Lemma easeInOutCubic_mono t u :
  0 <= t → t <= u → u <= 1 → easeInOutCubic t <= easeInOutCubic u.
Proof.
  intros H0 Htu H1. rewrite !easeInOutCubic_spec.
  destruct (Rlt_dec t 0.5), (Rlt_dec u 0.5); try lra.
  - pose proof (cube_le t u ltac:(lra)). lra.
  - pose proof (cube_le t 0.5 ltac:(lra)).
    pose proof (cube_le (-2 * u + 2) 1 ltac:(lra)). lra.
  - pose proof (cube_le (-2 * u + 2) (-2 * t + 2) ltac:(lra)). lra.
Qed.

Lemma easeOutQuart_range t : 0 <= t <= 1 → 0 <= easeOutQuart t <= 1.
Proof.
  intros [H0 H1]. unfold easeOutQuart.
  assert (0 <= (1 - t) ^ 4) by (apply pow_le; lra).
  assert ((1 - t) ^ 4 <= 1 ^ 4) by (apply pow_incr; lra).
  lra.
Qed.

Lemma easeOutQuart_mono t u :
  0 <= t → t <= u → u <= 1 → easeOutQuart t <= easeOutQuart u.
Proof.
  intros H0 Htu H1. unfold easeOutQuart.
  assert ((1 - u) ^ 4 <= (1 - t) ^ 4) by (apply pow_incr; lra). lra.
Qed.

(** X13. Both easing curves are proper eases on [0, 1]: they start at 0,
    end at 1, stay within [0, 1] and never decrease; the two branches of
    the cubic ease-in-out meet at 0.5, where its value is 0.5. *)
Theorem easing_curves (t u : R) :
  0 <= t → t <= u → u <= 1 →
  (easeInOutCubic 0 = 0 ∧ easeInOutCubic 1 = 1 ∧ easeInOutCubic 0.5 = 0.5
   ∧ 4 * 0.5 ^ 3 = 1 - (-2 * 0.5 + 2) ^ 3 / 2)
  ∧ (easeOutQuart 0 = 0 ∧ easeOutQuart 1 = 1)
  ∧ (0 <= easeInOutCubic t <= 1 ∧ 0 <= easeOutQuart t <= 1)
  ∧ easeInOutCubic t <= easeInOutCubic u
  ∧ easeOutQuart t <= easeOutQuart u.
Proof.
  intros H0 Htu H1. split; [|split; [|split; [|split]]].
  - rewrite !easeInOutCubic_spec.
    destruct (Rlt_dec 0 0.5), (Rlt_dec 1 0.5), (Rlt_dec 0.5 0.5);
      first [exfalso; lra | repeat split; lra].
  - unfold easeOutQuart. split; lra.
  - split; [apply easeInOutCubic_range | apply easeOutQuart_range]; lra.
  - by apply easeInOutCubic_mono.
  - by apply easeOutQuart_mono.
Qed.

Lemma easing_curves_witness :
  easeInOutCubic 0.25 <= easeInOutCubic 0.75
  ∧ easeOutQuart 0.25 <= easeOutQuart 0.75.
Proof.
  destruct (easing_curves 0.25 0.75) as (_ & _ & _ & H1 & H2); [lra..|].
  by split.
Defined.

(** X14. The windows of the three phases on the master progress: the
    move is complete exactly from 0.4 on, where the rotation starts; the
    rotation is complete exactly from 0.9 on; the cone starts to form,
    and the geometries are rebuilt, exactly above 0.7, while the rotation
    is still under way. *)
Theorem phase_windows (p : R) :
  0 <= p <= 1 →
  (phase1 p = 1 ↔ 0.4 <= p)
  ∧ (phase2 p = 0 ↔ p <= 0.4)
  ∧ (phase2 p = 1 ↔ 0.9 <= p)
  ∧ (phase3 p = 0 ↔ p <= 0.7)
  ∧ (∀ filterType, rebuildGeometry (animating_frame filterType p) = true ↔ 0.7 < p)
  ∧ (0 <= phase1 p <= 1 ∧ 0 <= phase2 p <= 1 ∧ 0 <= phase3 p <= 1)
  ∧ (phase3 p <= phase2 p ∧ phase2 p <= phase1 p).
Proof.
  intros [H0 H1]. unfold animating_frame, phase1, phase2, phase3, Rmax, Rmin. simpl.
  repeat destruct (Rle_dec _ _); repeat destruct (Rlt_dec _ _);
    repeat split; intros; try lra; try done.
Qed.

Lemma phase_windows_witness :
  phase1 0.5 = 1 ∧ phase2 0.5 <= phase1 0.5.
Proof.
  destruct (phase_windows 0.5) as (H1 & _ & _ & _ & _ & _ & _ & H2); [lra|].
  split; [apply H1; lra | exact H2].
Defined.

Lemma phase_ranges p :
  0 <= p <= 1 → 0 <= phase1 p <= 1 ∧ 0 <= phase2 p <= 1.
Proof.
  intros Hp. unfold phase1, phase2, Rmax, Rmin.
  repeat destruct (Rle_dec _ _); lra.
Qed.

Lemma coneEase_below_one filterType p :
  0 <= p <= 1 →
  0 <= coneEase (animating_frame filterType p) <= 1 - 4 / 1000000000.
Proof.
  intros Hp. unfold animating_frame. cbn [coneEase].
  assert (H3 : 0 <= phase3 p <= 0.999).
  { unfold phase3, Rmax, Rmin. repeat destruct (Rle_dec _ _); lra. }
  set (e := phase3 p) in *. clearbody e.
  rewrite easeInOutCubic_spec. destruct (Rlt_dec e 0.5).
  - pose proof (cube_le 0 e ltac:(lra)). pose proof (cube_le e 0.5 ltac:(lra)). lra.
  - pose proof (cube_le 0.002 (-2 * e + 2) ltac:(lra)).
    pose proof (cube_le (-2 * e + 2) 1 ltac:(lra)). lra.
Qed.

(** The geometries that a frame builds, when it builds them. *)
Lemma rebuilt_geometries_Some filterType p pg fg :
  rebuilt_geometries filterType p = Some (pg, fg) →
  0 < phase3 p
  ∧ pg = paper_geometry (animating_frame filterType p)
  ∧ fg = filter_geometry filterType (animating_frame filterType p).
Proof.
  unfold rebuilt_geometries. cbv zeta.
  unfold animating_frame at 1. cbn [rebuildGeometry].
  destruct (Rlt_dec 0 (phase3 p)); [|done].
  intros H. injection H as <- <-. done.
Qed.

(** X15. The cone is never quite finished.  The third window has the
    scale 3.33, so it ends short of 1: at every frame of a merge
    animation the cone ease stays below 1, and the cylinders built for
    the paper and the filter stay strictly larger than the final cone
    (height 2.8, radii 0.18 and 0.12; filter height 0.6, bottom radius
    0.14, top radius 0.12, or 0.12 * 0.64 for the wooden filter); when
    the progress is 1 the move and the rotation are complete, the
    geometries are still rebuilt, and the cone ease is within a
    millionth of 1. *)
Theorem cone_never_complete (rate : R) (deltas : list R) (filterType : option FilterType) :
  0 < rate →
  Forall (λ d, 0 <= d) deltas →
  let p := animProgress (merge_run rate deltas) in
  let fr := animating_frame filterType p in
  phase3 p < 1
  ∧ coneEase fr < 1
  ∧ (∀ pg fg, rebuilt_geometries filterType p = Some (pg, fg) →
       (2.8 < height pg ∧ 0.18 < radiusTop pg ∧ 0.12 < radiusBottom pg)
       ∧ (0.6 < height fg ∧ 0.14 < radiusBottom fg)
       ∧ (filterType = Some wooden → 0.0768 < radiusTop fg)
       ∧ (filterType ≠ Some wooden → 0.12 < radiusTop fg))
  ∧ (p = 1 → moveEase fr = 1 ∧ rotateEase fr = 1 ∧ 0.999999 < coneEase fr
             ∧ is_Some (rebuilt_geometries filterType p)).
Proof.
  intros Hrate Hds. cbv zeta.
  assert (Hp : 0 <= animProgress (merge_run rate deltas) <= 1)
    by (apply animProgress_range; [lra|done]).
  set (p := animProgress (merge_run rate deltas)) in *. clearbody p.
  pose proof (coneEase_below_one filterType p Hp) as Hc.
  split; [|split; [|split]].
  - unfold phase3, Rmax, Rmin. repeat destruct (Rle_dec _ _); lra.
  - lra.
  - intros pg fg H. apply rebuilt_geometries_Some in H as (_ & -> & ->).
    revert Hc. unfold filter_geometry, paper_geometry, animating_frame.
    cbn [coneEase paperHeight paperTopRadius paperBottomRadius filterHeight
         filterTopRadius filterBottomRadius].
    set (e := easeInOutCubic (phase3 p)). clearbody e. intros Hc.
    destruct (decide (filterType = Some wooden)) as [Hw|Hw];
      cbn [height radiusTop radiusBottom];
      (split; [|split; [|split]]);
      first [ by (intros ?; first [done | lra]) | repeat split; lra ].
  - intros ->. unfold rebuilt_geometries, animating_frame.
    cbn [moveEase rotateEase coneEase rebuildGeometry].
    rewrite !easeInOutCubic_spec. unfold easeOutQuart, phase1, phase2, phase3, Rmax, Rmin.
    repeat destruct (Rle_dec _ _); repeat destruct (Rlt_dec _ _);
      first [exfalso; lra | repeat split; first [lra | by eexists]].
Qed.

Lemma cone_never_complete_witness :
  coneEase (animating_frame (Some wooden) (animProgress (merge_run 0.35 [1; 1; 1]))) < 1.
Proof.
  destruct (cone_never_complete 0.35 [1; 1; 1] (Some wooden)) as (_ & H & _).
  - lra.
  - repeat constructor; lra.
  - exact H.
Defined.

(** X16. The geometry of every frame of a merge animation: the paper
    stays on the right and the filter, its mirror image, on the left, so
    the two never cross; the rolls turn from lying to upright and the
    group turns by at most 0.3 π; the geometries are rebuilt exactly
    when the progress is above 0.7, and the cylinders built then are
    proper ones, with the radii and heights between their end points:
    for the paper 0.18 to 0.20, 0.12 to 0.35 and 2.8 to 4, open-ended
    with 80 segments; for the filter a height of 0.6 to 1.2 and 48
    segments, a top radius of 0.12 to 0.20 and a bottom radius of 0.14 to
    0.20, except for the wooden filter, whose top radius, scaled by
    0.64, is between 0.0768 and 0.128 and below its bottom radius of 0.14
    to 0.28. *)
Theorem frame_geometry_range (rate : R) (deltas : list R) (filterType : option FilterType) :
  0 < rate →
  Forall (λ d, 0 <= d) deltas →
  let p := animProgress (merge_run rate deltas) in
  let fr := animating_frame filterType p in
  (0 <= paperPositionX fr <= 1.8 ∧ filterPositionX fr = - paperPositionX fr)
  ∧ (- PI / 2 <= rotationAngle fr <= 0 ∧ 0 <= groupRotationY fr <= 0.3 * PI)
  ∧ filterY fr < paperY fr
  ∧ (rebuilt_geometries filterType p = None ↔ p <= 0.7)
  ∧ (∀ pg fg, rebuilt_geometries filterType p = Some (pg, fg) →
       (0.18 <= radiusTop pg <= 0.20 ∧ 0.12 <= radiusBottom pg <= 0.35
        ∧ 2.8 <= height pg <= 4
        ∧ radialSegments pg = 80%nat ∧ openEnded pg = true)
       ∧ (0.6 <= height fg <= 1.2
          ∧ radialSegments fg = 48%nat ∧ openEnded fg = false)
       ∧ (filterType = Some wooden →
            0.0768 <= radiusTop fg <= 0.128
            ∧ 0.14 <= radiusBottom fg <= 0.28
            ∧ radiusTop fg < radiusBottom fg)
       ∧ (filterType ≠ Some wooden →
            0.12 <= radiusTop fg <= 0.20
            ∧ 0.14 <= radiusBottom fg <= 0.20)).
Proof.
  intros Hrate Hds. cbv zeta.
  assert (Hp : 0 <= animProgress (merge_run rate deltas) <= 1)
    by (apply animProgress_range; [lra|done]).
  set (p := animProgress (merge_run rate deltas)) in *. clearbody p.
  pose proof (coneEase_below_one filterType p Hp) as Hc.
  destruct (phase_ranges p Hp) as (Hp1 & Hp2).
  pose proof (easeInOutCubic_range (phase1 p) Hp1) as Hm.
  pose proof (easeOutQuart_range (phase2 p) Hp2) as Hq.
  pose proof PI_RGT_0 as Hpi.
  split; [|split; [|split; [|split]]].
  - unfold animating_frame. cbn [paperPositionX filterPositionX].
    set (m := easeInOutCubic (phase1 p)) in *. set (w := phase2 p) in *.
    clearbody m w. split; [split|]; nra.
  - unfold animating_frame. cbn [rotationAngle groupRotationY].
    set (q := easeOutQuart (phase2 p)) in *. set (w := phase2 p) in *.
    clearbody q w. split; split; nra.
  - revert Hc. unfold animating_frame.
    cbn [coneEase filterY paperY paperHeight filterHeight].
    set (e := easeInOutCubic (phase3 p)). clearbody e. intros Hc. nra.
  - unfold rebuilt_geometries, animating_frame. cbn [rebuildGeometry].
    unfold phase3, Rmax, Rmin.
    repeat destruct (Rle_dec _ _); destruct (Rlt_dec _ _);
      split; intros H; first [done | lra].
  - intros pg fg H. apply rebuilt_geometries_Some in H as (_ & -> & ->).
    revert Hc. unfold filter_geometry, paper_geometry, animating_frame.
    cbn [coneEase paperHeight paperTopRadius paperBottomRadius filterHeight
         filterTopRadius filterBottomRadius].
    set (e := easeInOutCubic (phase3 p)). clearbody e. intros Hc.
    destruct (decide (filterType = Some wooden)) as [Hw|Hw];
      cbn [height radiusTop radiusBottom radialSegments openEnded];
      (split; [|split; [|split]]);
      first [ by (intros ?; first [done | repeat split; lra])
            | repeat split; first [lra | reflexivity] ].
Qed.

Lemma frame_geometry_range_witness :
  let p := animProgress (merge_run 0.35 [1; 1]) in
  let fr := animating_frame (Some wooden) p in
  (0 <= paperPositionX fr <= 1.8 ∧ filterPositionX fr = - paperPositionX fr)
  ∧ (rebuilt_geometries (Some wooden) p = None ↔ p <= 0.7).
Proof.
  destruct (frame_geometry_range 0.35 [1; 1] (Some wooden)) as (H1 & _ & _ & H2 & _).
  - lra.
  - repeat constructor; lra.
  - split; [exact H1 | exact H2].
Defined.

End MergeMore.

(** ** More on the cone composition *)

Module RenderMore.

Import Types Render.
Local Open Scope R_scope.

Lemma proceduralTexture_no_url paperType url ps :
  TextureCache.truthy url = false →
  ∃ b, fst (proceduralTexture paperType url ps) = Some b
       ∧ fst (Procedural.getProceduralTexture paperType ps) = Some b.
Proof.
  intros Hu. unfold proceduralTexture. rewrite Hu. simpl.
  destruct (ProceduralFacts.getProceduralTexture_some paperType ps) as (b & Hb & _).
  eauto.
Qed.

Lemma proceduralTexture_url paperType url ps :
  TextureCache.truthy url = true → proceduralTexture paperType url ps = (None, ps).
Proof. intros Hu. unfold proceduralTexture. by rewrite Hu. Qed.

Lemma sameTextureUrl_truthy state :
  sameTextureUrl state = true → TextureCache.truthy (paperTextureUrl state) = true.
Proof.
  unfold sameTextureUrl. intros H.
  apply andb_true_iff in H as [H _]. by apply andb_true_iff in H as [H _].
Qed.

(** X17. The paper of the cone.  Without a paper texture url its map is
    a clone of the procedural buffer of the paper type and its roughness
    is 0.85 for every paper type.  With a url the procedural buffer is
    never used: while no texture has arrived (the load is pending or has
    failed) the material has no map and the roughness of the paper type;
    once the texture is there the map is a clone of it and the roughness
    is 0.85 again. *)
Theorem cone_paper_material (state : CustomizationState)
    (basePaperTexture baseFilterTexture : option TextureCache.Texture)
    (ps : Procedural.State) :
  let m := ConeMesh_paper state basePaperTexture baseFilterTexture ps in
  (TextureCache.truthy (paperTextureUrl state) = false →
   basePaperTexture = None →
   roughness m = 0.85
   ∧ ∃ b, map m = Some (Clone (Generated b))
          ∧ fst (Procedural.getProceduralTexture (paperType state) ps) = Some b)
  ∧ (TextureCache.truthy (paperTextureUrl state) = true →
     basePaperTexture = None →
     sameTextureUrl state = false ∨ baseFilterTexture = None →
     map m = None ∧ roughness m = getPaperRoughness (paperType state))
  ∧ (∀ tex, basePaperTexture = Some tex →
       map m = Some (Clone (Custom tex)) ∧ roughness m = 0.85)
  ∧ metalness m = 0.
Proof.
  cbv zeta. unfold ConeMesh_paper, ConeMesh_maps.
  split; [|split; [|split]].
  - intros Hu ->.
    assert (Hs : sameTextureUrl state = false).
    { destruct (sameTextureUrl state) eqn:E; [|done].
      apply sameTextureUrl_truthy in E. congruence. }
    rewrite Hs.
    destruct (proceduralTexture_no_url (paperType state) _ ps Hu) as (b & Hb & Hg).
    destruct (proceduralTexture _ _ ps) as [pt ps']. simpl in Hb. subst pt.
    simpl. split; [done|]. by exists b.
  - intros Hu -> Hs. rewrite (proceduralTexture_url _ _ ps Hu).
    destruct Hs as [-> | ->]; simpl; [done|].
    destruct (sameTextureUrl state); done.
  - intros tex ->.
    destruct (proceduralTexture _ _ ps) as [pt ps'].
    destruct (sameTextureUrl state); simpl; done.
  - destruct (proceduralTexture _ _ ps) as [pt ps'].
    destruct (nullish _ _); done.
Qed.

Lemma cone_paper_material_witness :
  roughness (ConeMesh_paper tinted_state None None Procedural.init) = 0.85
  ∧ ∃ b, map (ConeMesh_paper tinted_state None None Procedural.init)
         = Some (Clone (Generated b))
         ∧ fst (Procedural.getProceduralTexture (paperType tinted_state) Procedural.init)
           = Some b.
Proof.
  destruct (cone_paper_material tinted_state None None Procedural.init) as (H & _).
  by apply H.
Defined.

(** X18. One image for both parts: when the paper and the filter have
    the same non-empty texture url, the paper map and the filter map are
    clones of one and the same texture as soon as either part has it,
    the paper's own texture taking precedence. *)
Theorem cone_shared_texture (state : CustomizationState)
    (basePaperTexture baseFilterTexture : option TextureCache.Texture)
    (ps : Procedural.State) (tex : TextureCache.Texture) :
  sameTextureUrl state = true →
  nullish basePaperTexture baseFilterTexture = Some tex →
  let '(paperMap, filterMap, _) :=
    ConeMesh_maps state basePaperTexture baseFilterTexture ps in
  paperMap = Some (Clone (Custom tex)) ∧ filterMap = Some (Clone (Custom tex)).
Proof.
  intros Hs Ht. unfold ConeMesh_maps. rewrite Hs, Ht.
  by destruct (proceduralTexture _ _ ps) as [pt ps'].
Qed.

Lemma cone_shared_texture_witness :
  let state := mkCustomizationState (Some hemp) (Some folded) None None None None
                 (Some "data:image/png;base64,AA==") (Some "data:image/png;base64,AA==")
                 "" "" "" in
  let '(paperMap, filterMap, _) :=
    ConeMesh_maps state None (Some uploaded_texture) Procedural.init in
  paperMap = Some (Clone (Custom uploaded_texture))
  ∧ filterMap = Some (Clone (Custom uploaded_texture)).
Proof.
  cbv zeta.
  apply (cone_shared_texture
           (mkCustomizationState (Some hemp) (Some folded) None None None None
              (Some "data:image/png;base64,AA==") (Some "data:image/png;base64,AA==")
              "" "" "")
           None (Some uploaded_texture) Procedural.init uploaded_texture);
    reflexivity.
Defined.

(** X19. The ceramic, wooden and ball filters have a fixed body: its
    material is the same whatever colour override, texture url or loaded
    textures there are, and only the wooden one carries a map, the wood
    texture. *)
Theorem cone_filter_fixed_body (state state' : CustomizationState)
    (bp bf bp' bf' : option TextureCache.Texture) (ps ps' : Procedural.State) :
  filterType state = filterType state' →
  filterType state = Some ceramic ∨ filterType state = Some wooden
    ∨ filterType state = Some ball →
  ConeMesh_filter state bp bf ps = ConeMesh_filter state' bp' bf' ps'
  ∧ (map (ConeMesh_filter state bp bf ps) = Some Wood ↔ filterType state = Some wooden)
  ∧ (filterType state ≠ Some wooden → map (ConeMesh_filter state bp bf ps) = None).
Proof.
  intros Heq Hk. unfold ConeMesh_filter. rewrite <- Heq.
  destruct (ConeMesh_maps state bp bf ps) as [[pm fm] ps1].
  destruct (ConeMesh_maps state' bp' bf' ps') as [[pm' fm'] ps1'].
  destruct Hk as [-> | [-> | ->]]; cbn [map];
    (split; [reflexivity|]); split; try split; intros; congruence.
Qed.

Lemma cone_filter_fixed_body_witness :
  ConeMesh_filter (with_colors None (Some "#00ff00")
                     (mkCustomizationState None (Some ball) None None None None
                        None None "" "" ""))
    None (Some uploaded_texture) Procedural.init
  = ConeMesh_filter (mkCustomizationState None (Some ball) None None None None
                       None None "" "" "") None None Procedural.init.
Proof.
  destruct (cone_filter_fixed_body
              (with_colors None (Some "#00ff00")
                 (mkCustomizationState None (Some ball) None None None None
                    None None "" "" ""))
              (mkCustomizationState None (Some ball) None None None None
                 None None "" "" "")
              None (Some uploaded_texture) None None Procedural.init Procedural.init)
    as [H _].
  - reflexivity.
  - right. right. reflexivity.
  - exact H.
Defined.

End RenderMore.

(** ** Quantities and prices *)

Module PricingFacts.

Import Types Pricing.
Local Open Scope R_scope.

(** Decides the quantity test first, then the tier tests. *)
Ltac case_tiers :=
  repeat match goal with
         | |- context [Rlt_dec ?a ?b] => destruct (Rlt_dec a b)
         | |- context [Rle_dec ?a ?b] => destruct (Rle_dec a b)
         end.

Lemma getQuantity_nonneg parseInt state : 0 <= getQuantity parseInt state.
Proof.
  unfold getQuantity. destruct (lotSize state) as [[]|]; try lra.
  destruct (Rlt_dec 0 _); lra.
Qed.

(** X20. The price per cone is one of seven tiers between 0.40 and 0.75
    and never rises with the quantity: of two orders, the one with the
    larger quantity has the lower or the same price per cone.  The
    quantity itself is never negative. *)
Theorem price_per_cone_tiers (parseInt : string → option R)
    (state state' : CustomizationState) :
  getQuantity parseInt state <= getQuantity parseInt state' →
  0 <= getQuantity parseInt state
  ∧ 0.4 <= getPricePerCone parseInt state <= 0.75
  ∧ getPricePerCone parseInt state' <= getPricePerCone parseInt state
  ∧ In (getPricePerCone parseInt state) [0.4; 0.45; 0.5; 0.55; 0.6; 0.65; 0.75].
Proof.
  intros Hle. split; [apply getQuantity_nonneg|].
  unfold getPricePerCone.
  set (q := getQuantity parseInt state) in *.
  set (q' := getQuantity parseInt state') in *. clearbody q q'.
  split; [case_tiers; lra|]. split; [case_tiers; lra|].
  case_tiers; simpl; tauto.
Qed.

Lemma price_per_cone_tiers_witness :
  getPricePerCone (λ _, Some 250) (custom_order "250") = 0.65
  ∧ getPricePerCone (λ _, Some 250)
      (mkCustomizationState None None None (Some large) None None None None "" "" "")
    <= getPricePerCone (λ _, Some 250) (custom_order "250").
Proof.
  destruct (price_per_cone_tiers (λ _, Some 250) (custom_order "250")
              (mkCustomizationState None None None (Some large) None None None None
                 "" "" "")) as (_ & _ & H & _).
  - unfold getQuantity, custom_order, or_zero. simpl. destruct (Rlt_dec 0 250); lra.
  - split; [|exact H].
    unfold getPricePerCone, getQuantity, custom_order, or_zero. simpl.
    case_tiers; lra.
Defined.

(** X21. The total is the quantity times a price between 0.40 and 0.75,
    and it is zero exactly when the quantity is zero; that is the case
    when no lot is chosen, for the mega and bulk lots, and for a custom
    lot whose text is not a number or not a positive one. *)
Theorem total_price_bounds (parseInt : string → option R) (state : CustomizationState) :
  let q := getQuantity parseInt state in
  let total := getTotalPriceNumber parseInt state in
  (0.4 * q <= total <= 0.75 * q)
  ∧ (total = 0 ↔ q = 0)
  ∧ (lotSize state = None ∨ lotSize state = Some mega ∨ lotSize state = Some bulk →
     q = 0 ∧ total = 0)
  ∧ (lotSize state = Some custom →
     (parseInt (customQuantity state) = None
      ∨ ∃ v, parseInt (customQuantity state) = Some v ∧ v <= 0) →
     q = 0 ∧ total = 0).
Proof.
  cbv zeta. unfold getTotalPriceNumber.
  pose proof (getQuantity_nonneg parseInt state) as Hq.
  assert (Hp : 0.4 <= getPricePerCone parseInt state <= 0.75).
  { unfold getPricePerCone. case_tiers; lra. }
  set (q := getQuantity parseInt state) in *.
  set (u := getPricePerCone parseInt state) in *.
  assert (Hz : q = 0 → q * u = 0) by (intros ->; ring).
  split; [split; nra|]. split; [split; [intros; nra | exact Hz]|].
  split.
  - intros Hlot. assert (E : q = 0).
    { unfold q, getQuantity. by destruct Hlot as [-> | [-> | ->]]. }
    split; [exact E | by apply Hz].
  - intros Hlot Hbad. assert (E : q = 0).
    { unfold q, getQuantity. rewrite Hlot.
      destruct Hbad as [-> | (v & -> & Hv)]; simpl; destruct (Rlt_dec 0 _); lra. }
    split; [exact E | by apply Hz].
Qed.

Lemma total_price_bounds_witness :
  getTotalPriceNumber (λ _, None) (custom_order "many") = 0.
Proof.
  destruct (total_price_bounds (λ _, None) (custom_order "many")) as (_ & _ & _ & H).
  apply H; [reflexivity | by left].
Defined.

(** X22. The total is not monotone in the quantity: at each of the six
    quantities where the price per cone drops (200, 1000, 5000, 10000,
    50000 and 100000) a custom order of exactly that many cones costs
    less than one of one cone fewer. *)
Theorem total_drops_at_tiers (parseInt : string → option R) (b : R)
    (fewer exact : string) :
  In b tier_starts →
  parseInt fewer = Some (b - 1) →
  parseInt exact = Some b →
  getQuantity parseInt (custom_order fewer) < getQuantity parseInt (custom_order exact)
  ∧ getTotalPriceNumber parseInt (custom_order exact)
    < getTotalPriceNumber parseInt (custom_order fewer).
Proof.
  intros Hb Hf He.
  unfold getTotalPriceNumber, getPricePerCone, getQuantity, custom_order. simpl.
  rewrite Hf, He. simpl. unfold tier_starts in Hb. simpl in Hb.
  destruct Hb as [<- | [<- | [<- | [<- | [<- | [<- | []]]]]]];
    case_tiers; first [exfalso; lra | split; lra].
Qed.

Lemma total_drops_at_tiers_witness :
  getTotalPriceNumber (λ t, if String.eqb t "199" then Some (200 - 1) else Some 200)
    (custom_order "200")
  < getTotalPriceNumber (λ t, if String.eqb t "199" then Some (200 - 1) else Some 200)
      (custom_order "199").
Proof.
  apply (total_drops_at_tiers
           (λ t, if String.eqb t "199" then Some (200 - 1) else Some 200)
           200 "199" "200").
  - left. reflexivity.
  - reflexivity.
  - reflexivity.
Defined.

End PricingFacts.

(** ** The steps of the wizard *)

Module WizardFacts.

Import Wizard.

Lemma press_bound step b : step ≤ 5 → press step b ≤ 5.
Proof.
  intros H. destruct b; simpl; unfold nextStep, prevStep.
  - destruct (Nat.ltb_spec step 5); lia.
  - destruct (Nat.ltb_spec 0 step); lia.
Qed.

Lemma walk_bound_from presses step :
  step ≤ 5 → fold_left press presses step ≤ 5.
Proof.
  revert step. induction presses as [|b bs IH]; intros step H; simpl; [done|].
  apply IH. by apply press_bound.
Qed.

(** X23. The step number never leaves 0..5 whatever buttons are pressed;
    [prevStep] undoes [nextStep] below 5 and [nextStep] undoes [prevStep]
    above 0, and both do nothing at their end.  Step 5 can be reached
    (five times [nextStep]) and is the only step for which the page
    renders no component; the bottom preview belongs to steps 1 to 4. *)
Theorem wizard_steps (presses : list Button) :
  let step := walk presses in
  step ≤ 5
  ∧ (step < 5 → prevStep (nextStep step) = step)
  ∧ (0 < step → nextStep (prevStep step) = step)
  ∧ nextStep 5 = 5 ∧ prevStep 0 = 0
  ∧ (rendered step = None ↔ step = 5)
  ∧ (showBottomPreview step = true ↔ 1 ≤ step ≤ 4)
  ∧ walk [Next; Next; Next; Next; Next] = 5.
Proof.
  cbv zeta. pose proof (walk_bound_from presses 0 ltac:(lia)) as Hb.
  fold (walk presses) in Hb. set (step := walk presses) in *. clearbody step.
  split; [done|]. unfold nextStep, prevStep, showBottomPreview.
  split; [|split; [|split; [|split; [|split; [|split]]]]]; try reflexivity.
  - intros H. destruct (Nat.ltb_spec step 5); [|lia].
    destruct (Nat.ltb_spec 0 (step + 1)); lia.
  - intros H. destruct (Nat.ltb_spec 0 step); [|lia].
    destruct (Nat.ltb_spec (step - 1) 5); lia.
  - do 6 (destruct step as [|step]; [simpl; split; (done || lia)|]). lia.
  - rewrite andb_true_iff, Nat.leb_le, Nat.leb_le. done.
Qed.

End WizardFacts.

(** ** The outline of the flat filter paper *)

Module ShapesFacts.

Import Shapes.
Local Open Scope R_scope.

Lemma on_circle r a : norm2 (r * cos a, r * sin a) = r * r.
Proof.
  unfold norm2. simpl. pose proof (sin2_cos2 a) as H. unfold Rsqr in H. nra.
Qed.

Lemma angle_at_first a0 a1 : angle_at a0 a1 0 = a0.
Proof. unfold angle_at. simpl. lra. Qed.

Lemma angle_at_last a0 a1 : angle_at a0 a1 segments = a1.
Proof.
  unfold angle_at.
  assert (INR segments / INR segments = 1).
  { apply Rdiv_diag. apply not_0_INR. discriminate. }
  rewrite H. lra.
Qed.

Lemma seq_last_32 : seq 0 (S segments) = seq 0 segments ++ [segments].
Proof. reflexivity. Qed.

(** X24. The outline of the flat filter paper is a closed path of 67
    points: it starts with the only [moveTo], runs along 33 points of
    the outer circle from the start angle to the end angle, comes back
    along 33 points of the inner circle from the end angle to the start
    angle, and its last line returns to the first point. *)
Theorem annular_sector_outline (innerRadius outerRadius startAngle endAngle : R) :
  let shape := createAnnularSectorShape innerRadius outerRadius startAngle endAngle in
  let outer := outer_arc outerRadius startAngle endAngle in
  let inner := inner_arc innerRadius startAngle endAngle in
  (length shape = 67 ∧ length outer = 33 ∧ length inner = 33)%nat
  ∧ hd_error shape = Some (MoveTo (outerRadius * cos startAngle) (outerRadius * sin startAngle))
  ∧ List.last shape (MoveTo 0 0)
    = LineTo (outerRadius * cos startAngle) (outerRadius * sin startAngle)
  ∧ Forall (λ c, ∃ x y, c = LineTo x y) (tl shape)
  ∧ Forall (λ c, norm2 (point c) = outerRadius * outerRadius) outer
  ∧ Forall (λ c, norm2 (point c) = innerRadius * innerRadius) inner
  ∧ List.last outer (MoveTo 0 0)
    = LineTo (outerRadius * cos endAngle) (outerRadius * sin endAngle)
  ∧ hd_error inner = Some (LineTo (innerRadius * cos endAngle) (innerRadius * sin endAngle))
  ∧ List.last inner (MoveTo 0 0)
    = LineTo (innerRadius * cos startAngle) (innerRadius * sin startAngle).
Proof.
  cbv zeta.
  assert (Hout : Forall (λ c, norm2 (point c) = outerRadius * outerRadius)
                   (outer_arc outerRadius startAngle endAngle)).
  { unfold outer_arc. apply Forall_forall. intros c Hc.
    apply list_elem_of_In, in_map_iff in Hc as (i & <- & _).
    destruct (Nat.eqb i 0); apply on_circle. }
  assert (Hin : Forall (λ c, norm2 (point c) = innerRadius * innerRadius)
                  (inner_arc innerRadius startAngle endAngle)).
  { unfold inner_arc. apply Forall_forall. intros c Hc.
    apply list_elem_of_In, in_map_iff in Hc as (i & <- & _). apply on_circle. }
  assert (Hlast_out : List.last (outer_arc outerRadius startAngle endAngle) (MoveTo 0 0)
            = LineTo (outerRadius * cos endAngle) (outerRadius * sin endAngle)).
  { unfold outer_arc. rewrite seq_last_32, List.map_app. simpl List.map at 2.
    rewrite List.last_last, angle_at_last. reflexivity. }
  assert (Hhd_in : hd_error (inner_arc innerRadius startAngle endAngle)
            = Some (LineTo (innerRadius * cos endAngle) (innerRadius * sin endAngle))).
  { unfold inner_arc. rewrite seq_last_32, rev_app_distr. simpl rev at 1.
    cbn [app List.map hd_error]. by rewrite angle_at_last. }
  assert (Hlast_in : List.last (inner_arc innerRadius startAngle endAngle) (MoveTo 0 0)
            = LineTo (innerRadius * cos startAngle) (innerRadius * sin startAngle)).
  { unfold inner_arc.
    change (seq 0 (S segments)) with (0%nat :: seq 1 segments).
    cbn [rev]. rewrite List.map_app. simpl List.map at 2.
    rewrite List.last_last, angle_at_first. reflexivity. }
  assert (Hlen_out : length (outer_arc outerRadius startAngle endAngle) = 33%nat).
  { unfold outer_arc. by rewrite List.length_map, List.length_seq. }
  assert (Hlen_in : length (inner_arc innerRadius startAngle endAngle) = 33%nat).
  { unfold inner_arc. by rewrite List.length_map, List.length_rev, List.length_seq. }
  unfold createAnnularSectorShape.
  split; [|split; [|split; [|split; [|split; [|split; [|split; [|split]]]]]]].
  5: exact Hout. 5: exact Hin. 5: exact Hlast_out. 5: exact Hhd_in. 5: exact Hlast_in.
  - split; [|split; [exact Hlen_out | exact Hlen_in]].
    rewrite !List.length_app, Hlen_out, Hlen_in. reflexivity.
  - unfold outer_arc.
    change (seq 0 (S segments)) with (0%nat :: seq 1 segments).
    cbn [List.map app hd_error Nat.eqb]. by rewrite angle_at_first.
  - by rewrite !app_assoc, List.last_last.
  - unfold outer_arc.
    change (seq 0 (S segments)) with (0%nat :: seq 1 segments).
    cbn [List.map app tl Nat.eqb].
    apply Forall_app. split; [|apply Forall_app; split].
    + apply Forall_forall. intros c Hc.
      apply list_elem_of_In, in_map_iff in Hc as (i & <- & Hi).
      apply in_seq in Hi. destruct i; [lia|]. simpl. eauto.
    + unfold inner_arc. apply Forall_forall. intros c Hc.
      apply list_elem_of_In, in_map_iff in Hc as (i & <- & _). eauto.
    + repeat constructor. eauto.
Qed.

End ShapesFacts.

(** ** The wood texture *)

Module WoodFacts.

Import Wood.
Local Open Scope R_scope.

(** Names every sine of the goal and records its range. *)
Ltac bound_sines :=
  repeat match goal with
         | |- context [sin ?t] =>
             let S := fresh "S" in
             let H := fresh "HS" in
             pose proof (SIN_bound t) as H;
             set (S := sin t) in *; clearbody S
         end.

(** X25. The wood texture is a brown that never saturates: in every
    cell the clamp leaves the three colour channels as computed, red is
    above green and green above blue, all three lie between 74 and 218,
    and the alpha channel is 255. *)
Theorem wood_texel_brown (i j : nat) :
  let x := INR i / INR Procedural.size * 20 in
  let y := INR j / INR Procedural.size * 20 in
  let '(r, g, b, a) := wood_texel i j in
  (r, g, b) = wood_rgb x y
  ∧ b < g ∧ g < r
  ∧ 74 < b ∧ r <= 218
  ∧ a = 255.
Proof.
  cbv zeta. unfold wood_texel.
  set (x := INR i / INR Procedural.size * 20).
  set (y := INR j / INR Procedural.size * 20). clearbody x y.
  unfold wood_rgb. bound_sines.
  destruct (Rlt_dec (Rabs _) 0.1);
    rewrite !ProceduralMore.clamp_channel_id by lra;
    repeat split; lra.
Qed.

End WoodFacts.
